(** * go-ripple: the change impact analysis engine

    A shallow embedding of [internal/rippler/rippler.go] and of the records of
    [internal/model], with the properties of the reconciler, the manifest
    differ, the file-to-unit mapper and the reverse-graph propagator.

    Go maps are [gmap]s keyed by strings.  A [for ... range] over a map visits
    its entries in an order the language leaves unspecified, so every such
    loop takes its order from a [RangeOrder]: any enumeration of the entries
    is allowed, and the theorems quantify over all of them.

    Names follow the source.  Where two Go names would meet in one
    namespace they are told apart: the field [ImportPath] of
    [AffectedPackage] is [AffectedImportPath], the field [Indirect] of
    [GoModDependency] is [DepIndirect], and the fields [GoMod] and [Changes]
    of [Report] are [ReportGoMod] and [Changes_]. *)

From Stdlib Require Import Ascii.
From stdpp Require Import gmap strings list fin_maps sorting.

Local Open Scope string_scope.
Local Open Scope list_scope.
Local Open Scope nat_scope.

(** ** Records of [internal/model] *)

Record GoModDependency := {
  Path : string;
  Version : string;
  DepIndirect : bool
}.

Record GoModReplace := {
  Old : GoModDependency;
  New : GoModDependency
}.

Record GoMod := {
  Module : GoModDependency;
  Go : string;
  Require : list GoModDependency;
  Exclude : list GoModDependency;
  Replace : list GoModReplace;
  Tool : list GoModDependency
}.

Record Package := {
  Dir : string;
  GoFiles : list string;
  ImportPath : string;
  Imports : list string;
  TestImports : list string;
  XTestImports : list string;
  Deps : list string
}.

Record AffectedPackage := {
  AffectedImportPath : string;
  Indirect : bool
}.

(** ** Records of [internal/rippler] *)

Record Change := {
  PackageName : string;
  Reasons : list string
}.

Record Report := {
  ReportGoMod : GoMod;
  DirtyFiles : list string;
  AllPackages : list Package;
  AffectedPackages : list AffectedPackage;
  Changes_ : list Change
}.

Record Rippler := {
  goModFilePath : string;
  baseBranch : string
}.

Definition emptyDependency : GoModDependency :=
  {| Path := ""; Version := ""; DepIndirect := false |}.

Definition emptyGoMod : GoMod :=
  {| Module := emptyDependency; Go := ""; Require := []; Exclude := [];
     Replace := []; Tool := [] |}.

(** [&Report{}] *)
Definition emptyReport : Report :=
  {| ReportGoMod := emptyGoMod; DirtyFiles := []; AllPackages := [];
     AffectedPackages := []; Changes_ := [] |}.

Global Instance GoModDependency_eq_dec : EqDecision GoModDependency.
Proof. solve_decision. Defined.

Global Instance Package_eq_dec : EqDecision Package.
Proof. solve_decision. Defined.

Global Instance Change_eq_dec : EqDecision Change.
Proof. solve_decision. Defined.

Global Instance AffectedPackage_eq_dec : EqDecision AffectedPackage.
Proof. solve_decision. Defined.

(** ** Iteration order of [range] over a map *)

(** One enumeration per [range] statement (the [nat] names the statement)
    and per map. *)
Definition RangeOrder : Type :=
  nat → ∀ A : Type, gmap string A → list (string * A).

Definition range_ok (rg : RangeOrder) : Prop :=
  ∀ site A (m : gmap string A), rg site A m ≡ₚ map_to_list m.

Definition canonical_order : RangeOrder := λ _ A m, map_to_list m.

Definition reversed_order : RangeOrder := λ _ A m, reverse (map_to_list m).

(** The [range] statements of [rippler.go], in source order. *)
Definition site_file_changes : nat := 0.
Definition site_indirect_modules : nat := 1.
Definition site_queue : nat := 2.
Definition site_out : nat := 3.
Definition site_unify : nat := 4.

(** [m[k]] on a map of slices: the nil slice when [k] is absent. *)
Definition index_or_nil {A} (m : gmap string (list A)) (k : string) : list A :=
  default [] (m !! k).

(** ** Library functions used by the engine *)

(** [strings.HasPrefix(s, prefix)] *)
Definition strings_HasPrefix (s pre : string) : bool := String.prefix pre s.

(** [strings.Compare]: byte-wise lexicographic comparison. *)
Definition strings_Compare (a b : string) : comparison := String.compare a b.

(** [slices.SortFunc]: the library promises a sorted rearrangement of its
    argument.  The engine only sorts lists whose keys are pairwise distinct,
    on which every sorting algorithm returns the same list; insertion sort
    stands for it. *)
Section SortFunc.
Context {A : Type} (cmp : A → A → comparison).

Fixpoint sort_insert (x : A) (l : list A) : list A :=
  match l with
  | [] => [x]
  | y :: l' =>
      match cmp x y with
      | Lt => x :: y :: l'
      | _ => y :: sort_insert x l'
      end
  end.

Definition slices_SortFunc (l : list A) : list A :=
  foldr sort_insert [] l.
End SortFunc.

(** ** [unifyChanges] *)

Definition unify_step (unified : gmap string Change) (c : Change)
  : gmap string Change :=
  match unified !! PackageName c with
  | Some existing =>
      <[PackageName c :=
          {| PackageName := PackageName existing;
             Reasons := Reasons existing ++ Reasons c |}]> unified
  | None => <[PackageName c := c]> unified
  end.

(** The map [unified] when the first loop of [unifyChanges] ends. *)
Definition unified_map (ch : list Change) : gmap string Change :=
  foldl unify_step ∅ ch.

Definition unifyChanges (rg : RangeOrder) (ch : list Change) : list Change :=
  (rg site_unify Change (unified_map ch)).*2.

(** ** [propagateAffectedPackages] *)

(** [initialMap] after the first loop. *)
Definition initial_marks (initial : list Change) : gmap string () :=
  foldl (λ m c, <[PackageName c := ()]> m) ∅ initial.

Definition fullPackageImports (p : Package) : list string :=
  (Imports p ++ TestImports p) ++ XTestImports p.

Definition add_dependents (dependents : gmap string (list string))
    (p : Package) : gmap string (list string) :=
  foldl (λ d imp, <[imp := index_or_nil d imp ++ [ImportPath p]]> d)
        dependents (fullPackageImports p).

(** [dependents] after the second loop: the reverse import graph. *)
Definition build_dependents (pkgs : list Package) : gmap string (list string) :=
  foldl add_dependents ∅ pkgs.

(** The inner [for _, dep := range dependents[current]] loop. *)
Definition visit_step (st : gmap string () * list string) (dep : string)
  : gmap string () * list string :=
  match st.1 !! dep with
  | Some _ => st
  | None => (<[dep := ()]> st.1, st.2 ++ [dep])
  end.

Definition visit_dependents (deps : list string)
    (st : gmap string () * list string) : gmap string () * list string :=
  foldl visit_step st deps.

(** Every identifier that occurs in some dependent list. *)
Definition dependents_range (dependents : gmap string (list string))
  : gset string :=
  list_to_set (mjoin (map_to_list dependents).*2).

(** The number of iterations [for len(queue) > 0] can still make: each one
    pops an entry, and pushes only identifiers it marks for the first time. *)
Definition queue_budget (dependents : gmap string (list string))
    (marks : gmap string ()) (queue : list string) : nat :=
  size (dependents_range dependents ∖ dom marks) + length queue.

(** [n] iterations of the loop.  From [drain_queue] the count never runs
    out before the queue does ([drain_queue_cons]). *)
Fixpoint drain (n : nat) (dependents : gmap string (list string))
    (marks : gmap string ()) (queue : list string) : gmap string () :=
  match queue, n with
  | [], _ => marks
  | _ :: _, 0 => marks
  | current :: rest, S n' =>
      let st := visit_dependents (index_or_nil dependents current) (marks, rest) in
      drain n' dependents st.1 st.2
  end.

(** The [for len(queue) > 0] loop; [drain_queue_nil] and [drain_queue_cons]
    below are its two equations. *)
Definition drain_queue (dependents : gmap string (list string))
    (marks : gmap string ()) (queue : list string) : gmap string () :=
  drain (queue_budget dependents marks queue) dependents marks queue.

(** [initialMap] when the propagation loop ends. *)
Definition affected_marks (rg : RangeOrder) (report : Report) : gmap string () :=
  let initialMap := initial_marks (Changes_ report) in
  let dependents := build_dependents (AllPackages report) in
  let queue := (rg site_queue unit initialMap).*1 in
  drain_queue dependents initialMap queue.

Definition propagateAffectedPackages (rg : RangeOrder) (report : Report)
  : list AffectedPackage :=
  let initialMap := affected_marks rg report in
  let out :=
    (λ kv : string * (),
       {| AffectedImportPath := kv.1;
          Indirect := negb (strings_HasPrefix kv.1 (Path (Module (ReportGoMod report)))) |})
    <$> rg site_out unit initialMap in
  slices_SortFunc
    (λ a b, strings_Compare (AffectedImportPath a) (AffectedImportPath b)) out.

(** ** The file-to-unit mapper *)

Section Mapper.
(** [filepath.Join], of the Go library. *)
Variable filepath_Join : string → string → string.

Definition mapPackagesByFile (pkgs : list Package) : gmap string string :=
  foldl (λ result p,
           foldl (λ res file, <[filepath_Join (Dir p) file := ImportPath p]> res)
                 result (GoFiles p))
        ∅ pkgs.

(** [fmt.Sprintf("file %s has changed", f)] *)
Definition file_reason (f : string) : string :=
  "file " +:+ f +:+ " has changed".

Definition file_change_step (pkgMap : gmap string string)
    (affected : gmap string Change) (f : string) : gmap string Change :=
  match pkgMap !! f with
  | Some pkg =>
      match affected !! pkg with
      | None =>
          <[pkg := {| PackageName := pkg; Reasons := [file_reason f] |}]> affected
      | Some ch =>
          <[pkg := {| PackageName := PackageName ch;
                      Reasons := Reasons ch ++ [file_reason f] |}]> affected
      end
  | None => affected
  end.

(** The map [affected] when the first loop ends. *)
Definition file_changes_map (pkgs : list Package) (dirty : list string)
  : gmap string Change :=
  foldl (file_change_step (mapPackagesByFile pkgs)) ∅ dirty.

Definition affectedPackagesByFileChanges (rg : RangeOrder) (report : Report)
  : list Change :=
  (rg site_file_changes Change
      (file_changes_map (AllPackages report) (DirtyFiles report))).*2.
End Mapper.

(** ** The manifest differ: the comparison of [getChangedModules] *)

(** [oldSet] after the first loop. *)
Definition old_versions (oldMod : GoMod) : gmap string string :=
  foldl (λ oldSet d, <[Path d := Version d]> oldSet) ∅ (Require oldMod).

Definition changed_modules (oldMod currentGoMod : GoMod) : list string :=
  let oldSet := old_versions oldMod in
  foldl (λ changed d,
           match oldSet !! Path d with
           | Some oldVer =>
               if decide (oldVer ≠ Version d) then changed ++ [Path d] else changed
           | None => changed ++ [Path d]
           end)
        [] (Require currentGoMod).

(** ** External calls *)

(** Errors carry their message; [fmt.Errorf("msg: %w", err)] prefixes it. *)
Definition error : Type := string.

Definition errorf (msg : string) (err : error) : error := msg +:+ ": " +:+ err.

(** What the engine does to the outside: run a command, write a file. *)
Inductive Event :=
  | Exec (argv : list string)
  | WriteFile (path content : string).

Global Instance Event_eq_dec : EqDecision Event.
Proof. solve_decision. Defined.

(** The outside world.  A command's output and a write's outcome may depend
    on everything the engine did before (the files it wrote); the remaining
    fields are functions of the Go library. *)
Record Env := {
  cmd_Output : list Event → list string → string + error;
  os_WriteFile : list Event → string → string → option error;
  os_TempDir : string;
  filepath_Join : string → string → string;
  filepath_Abs : string → string + error;
  json_Unmarshal_GoMod : string → GoMod + error;
  json_Decode_Packages : string → list Package + error;
  strings_TrimSpace : string → string;
  strings_Fields : string → list string
}.

(** A computation that calls out: it extends the log of events and returns a
    value or the error it stopped at. *)
Definition M (A : Type) : Type := list Event → (A + error) * list Event.

Definition ret {A} (a : A) : M A := λ log, (inl a, log).

Definition bind {A B} (c : M A) (k : A → M B) : M B :=
  λ log,
    match c log with
    | (inl a, log') => k a log'
    | (inr err, log') => (inr err, log')
    end.

Notation "'do' x <- c ; k" := (bind c (λ x, k))
  (at level 10, x name, c at level 100, k at level 200).

(** [if err != nil { return nil, fmt.Errorf("msg: %w", err) }] *)
Definition wrapf {A} (msg : string) (c : M A) : M A :=
  λ log,
    match c log with
    | (inl a, log') => (inl a, log')
    | (inr err, log') => (inr (errorf msg err), log')
    end.

(** A call whose error the caller inspects instead of returning. *)
Definition attempt {A} (c : M A) : M (A + error) :=
  λ log, let '(r, log') := c log in (inl r, log').

Definition lift {A} (r : A + error) : M A := λ log, (r, log).

(** [exec.CommandContext(ctx, argv...).Output()] *)
Definition exec (env : Env) (argv : list string) : M string :=
  λ log, (cmd_Output env log argv, log ++ [Exec argv]).

(** [os.WriteFile(path, content, 0644)] *)
Definition write_file (env : Env) (path content : string) : M unit :=
  λ log,
    (match os_WriteFile env log path content with
     | Some err => inr err
     | None => inl ()
     end, log ++ [WriteFile path content]).

(** [strings.HasSuffix(s, suffix)] *)
Definition strings_HasSuffix (s suffix : string) : bool :=
  String.prefix (String.rev suffix) (String.rev s).

(** The line feed. *)
Definition newline : string := String "010"%char EmptyString.

(** [strings.Split] on the line feed. *)
Fixpoint split_lines_aux (cur : string) (s : string) : list string :=
  match s with
  | EmptyString => [String.rev cur]
  | String c s' =>
      if Ascii.eqb c "010"%char
      then String.rev cur :: split_lines_aux EmptyString s'
      else split_lines_aux (String c cur) s'
  end.

Definition split_lines (s : string) : list string := split_lines_aux EmptyString s.

(** ** The pipeline of [Rippler.Changes] *)

Section Pipeline.
Variable env : Env.
Variable rg : RangeOrder.
Variable r : Rippler.

Definition parseGoMod (path : string) : M GoMod :=
  do out <- wrapf ("failed to parse go.mod (" +:+ path +:+ ")")
                  (exec env ["go"; "mod"; "edit"; "-json"; path]);
  wrapf "failed to unmarshal go.mod" (lift (json_Unmarshal_GoMod env out)).

(** The loop of [getChangedGoFiles] over the lines of the diff. *)
Fixpoint go_files_of (outLines : list string) (goFiles : list string)
  : list string + error :=
  match outLines with
  | [] => inl goFiles
  | line :: rest =>
      if negb (strings_HasSuffix line ".go") then go_files_of rest goFiles
      else
        match filepath_Abs env line with
        | inr fpErr =>
            inr (errorf ("failed to get absolute path for " +:+ line) fpErr)
        | inl abs => go_files_of rest (goFiles ++ [abs])
        end
  end.

Definition getChangedGoFiles : M (list string) :=
  do out <- wrapf "git diff failed"
                  (exec env ["git"; "diff"; "--name-only"; baseBranch r]);
  lift (go_files_of (split_lines out) []).

Definition listAllPackages : M (list Package) :=
  do out <- wrapf "go list failed" (exec env ["go"; "list"; "-json"; "./..."]);
  wrapf "failed to decode package" (lift (json_Decode_Packages env out)).

Definition goModHasChanged : M bool :=
  do out <- wrapf "git diff for go.mod failed"
                  (exec env ["git"; "diff"; "--name-only"; baseBranch r; "--"; "go.mod"]);
  ret (negb (String.eqb (strings_TrimSpace env out) "")).

Definition getChangedModules (currentGoMod : GoMod) : M (list string) :=
  let tmp := filepath_Join env (os_TempDir env) "go.mod.base" in
  do out <- wrapf "failed to get base go.mod"
                  (exec env ["git"; "show"; baseBranch r +:+ ":go.mod"]);
  do _ <- wrapf "failed to write temp go.mod" (write_file env tmp out);
  do oldMod <- parseGoMod tmp;
  ret (changed_modules oldMod currentGoMod).

Definition affectedPackagesByGoModChange (report : Report) : M (list Change) :=
  do modChanged <- wrapf "failed to check if go.mod has changed" goModHasChanged;
  if negb modChanged then ret []
  else
    do changedMods <- wrapf "failed to get changed modules"
                            (getChangedModules (ReportGoMod report));
    ret ((λ mod', {| PackageName := mod';
                     Reasons := ["module " +:+ mod' +:+ " has changed in go.mod"] |})
         <$> changedMods).

(** The loop of [getAllModules] and [getBaseModules] over the lines of
    [go list -m]. *)
Definition parse_modules (out : string) : gmap string string :=
  foldl (λ modules line,
           match strings_Fields env line with
           | f0 :: f1 :: _ => <[f0 := f1]> modules
           | _ => modules
           end)
        ∅ (split_lines out).

Definition getAllModules : M (gmap string string) :=
  do out <- wrapf "failed to list current modules"
                  (exec env ["go"; "list"; "-m"; "all"]);
  ret (parse_modules out).

Definition getBaseModules : M (gmap string string) :=
  let tmpMod := filepath_Join env (os_TempDir env) "go.base.mod" in
  let tmpSum := filepath_Join env (os_TempDir env) "go.base.sum" in
  do out <- wrapf "failed to get base go.mod"
                  (exec env ["git"; "show"; baseBranch r +:+ ":go.mod"]);
  do _ <- wrapf "failed to write base go.mod" (write_file env tmpMod out);
  do sum <- attempt (exec env ["git"; "show"; baseBranch r +:+ ":go.sum"]);
  do _ <- match sum with
          | inl out => wrapf "failed to write base go.sum" (write_file env tmpSum out)
          | inr _ => ret ()
          end;
  do out <- wrapf "failed to list base modules"
                  (exec env ["go"; "list"; "-m"; "-modfile=" +:+ tmpMod; "all"]);
  ret (parse_modules out).

(** The comparison loop of [getChangedIndirectModules]. *)
Definition changed_indirect (baseMods currentMods : gmap string string)
  : list string :=
  foldl (λ changed kv,
           match baseMods !! kv.1 with
           | Some oldVer =>
               if decide (oldVer ≠ kv.2) then changed ++ [kv.1] else changed
           | None => changed ++ [kv.1]
           end)
        [] (rg site_indirect_modules string currentMods).

Definition getChangedIndirectModules : M (list string) :=
  do baseMods <- getBaseModules;
  do currentMods <- getAllModules;
  ret (changed_indirect baseMods currentMods).

Definition affectedPackagesByExternalModule : M (list Change) :=
  do indirectMods <- wrapf "failed to get changed indirect modules"
                           getChangedIndirectModules;
  ret ((λ mod', {| PackageName := mod';
                   Reasons := ["indirect module " +:+ mod' +:+ " has changed in go.sum"] |})
       <$> indirectMods).

Definition with_GoMod (report : Report) (mod' : GoMod) : Report :=
  {| ReportGoMod := mod'; DirtyFiles := DirtyFiles report;
     AllPackages := AllPackages report;
     AffectedPackages := AffectedPackages report; Changes_ := Changes_ report |}.

Definition with_AllPackages (report : Report) (pkgs : list Package) : Report :=
  {| ReportGoMod := ReportGoMod report; DirtyFiles := DirtyFiles report;
     AllPackages := pkgs;
     AffectedPackages := AffectedPackages report; Changes_ := Changes_ report |}.

Definition with_DirtyFiles (report : Report) (files : list string) : Report :=
  {| ReportGoMod := ReportGoMod report; DirtyFiles := files;
     AllPackages := AllPackages report;
     AffectedPackages := AffectedPackages report; Changes_ := Changes_ report |}.

Definition with_Changes (report : Report) (ch : list Change) : Report :=
  {| ReportGoMod := ReportGoMod report; DirtyFiles := DirtyFiles report;
     AllPackages := AllPackages report;
     AffectedPackages := AffectedPackages report; Changes_ := ch |}.

Definition with_AffectedPackages (report : Report)
    (aff : list AffectedPackage) : Report :=
  {| ReportGoMod := ReportGoMod report; DirtyFiles := DirtyFiles report;
     AllPackages := AllPackages report;
     AffectedPackages := aff; Changes_ := Changes_ report |}.

(** [Changes] returns Go's pair of a report pointer and an error: each [return] of the
    source is one branch below, and [report] is the record under
    construction at that point. *)
Definition Changes (log0 : list Event)
  : (option Report * option error) * list Event :=
  let report := emptyReport in
  match parseGoMod (goModFilePath r) log0 with
  | (inr err, log) => ((None, Some (errorf "failed to parse go.mod" err)), log)
  | (inl mod', log) =>
  let report := with_GoMod report mod' in
  match listAllPackages log with
  | (inr err, log) => ((None, Some (errorf "failed to list all packages" err)), log)
  | (inl allPackages, log) =>
  let report := with_AllPackages report allPackages in
  match getChangedGoFiles log with
  | (inr err, log) => ((None, Some (errorf "failed to get changed Go files" err)), log)
  | (inl dirtyFiles, log) =>
  let report := with_DirtyFiles report dirtyFiles in
  let changes := affectedPackagesByFileChanges (filepath_Join env) rg report in
  match affectedPackagesByGoModChange report log with
  | (inr aErr, log) =>
      ((None, Some (errorf "failed to determine affected packages by go.mod change" aErr)), log)
  | (inl affectedByModChange, log) =>
  let changes := changes ++ affectedByModChange in
  match affectedPackagesByExternalModule log with
  | (inr aErr, log) =>
      ((None, Some (errorf "failed to determine affected packages by external module change" aErr)), log)
  | (inl affectedByExternalModChange, log) =>
  let changes := changes ++ affectedByExternalModChange in
  let report := with_Changes report (unifyChanges rg changes) in
  let report := with_AffectedPackages report (propagateAffectedPackages rg report) in
  ((Some report, None), log)
  end end end end end.
End Pipeline.

(** ** The printers: [buildPlan] and the test matrix *)

(** [strings.TrimPrefix(s, prefix)] *)
Fixpoint string_drop (n : nat) (s : string) : string :=
  match n, s with
  | 0, _ => s
  | S _, EmptyString => EmptyString
  | S n', String _ s' => string_drop n' s'
  end.

Definition strings_TrimPrefix (s pre : string) : string :=
  if strings_HasPrefix s pre then string_drop (String.length pre) s else s.

(** [strings.Split(s, sep)] for a separator of one byte. *)
Fixpoint split_on_aux (sep : ascii) (cur : string) (s : string) : list string :=
  match s with
  | EmptyString => [String.rev cur]
  | String c s' =>
      if Ascii.eqb c sep
      then String.rev cur :: split_on_aux sep EmptyString s'
      else split_on_aux sep (String c cur) s'
  end.

Definition strings_Split (s : string) (sep : ascii) : list string :=
  split_on_aux sep EmptyString s.

Record plan := {
  Apps : gmap string (list string);
  Others : list string
}.

Record matrixRow := {
  Name : string;
  IsApp : bool;
  Packages : list string
}.

(** The [range] statements of the printers. *)
Definition site_plan : nat := 5.
Definition site_matrix : nat := 6.

(** [strings.Split(strings.TrimPrefix(path, appsPrefix), "/")[0]] *)
Definition app_name (appsPrefix path : string) : string :=
  hd "" (strings_Split (strings_TrimPrefix path appsPrefix) "/"%char).

(** The body of the second loop of [buildPlan]. *)
Definition plan_step (appsPrefix : string) (result : plan) (pkg : AffectedPackage)
  : plan :=
  if Indirect pkg then result
  else if negb (strings_HasPrefix (AffectedImportPath pkg) appsPrefix)
  then {| Apps := Apps result;
          Others := Others result ++ [AffectedImportPath pkg] |}
  else
    let appName := app_name appsPrefix (AffectedImportPath pkg) in
    let apps :=
      match Apps result !! appName with
      | Some _ => Apps result
      | None => <[appName := []]> (Apps result)
      end in
    {| Apps := <[appName := index_or_nil apps appName ++ [AffectedImportPath pkg]]> apps;
       Others := Others result |}.

(** The map [affected] after the first loop of [buildPlan]. *)
Definition plan_index (affectedChanges : list AffectedPackage)
  : gmap string AffectedPackage :=
  foldl (λ affected pkg, <[AffectedImportPath pkg := pkg]> affected) ∅ affectedChanges.

Definition buildPlan (rg : RangeOrder) (affectedChanges : list AffectedPackage)
    (modName : string) : plan :=
  foldl (plan_step (modName +:+ "/apps/"))
        {| Apps := ∅; Others := [] |}
        (rg site_plan AffectedPackage (plan_index affectedChanges)).*2.

(** The slice [matrix] that [drawJSONMatrix] hands to the JSON encoder. *)
Definition drawJSONMatrix_rows (rg : RangeOrder)
    (affectedChanges : list AffectedPackage) (modName : string) : list matrixRow :=
  let result := buildPlan rg affectedChanges modName in
  let matrix :=
    (λ kv : string * list string,
       {| Name := kv.1; IsApp := true; Packages := kv.2 |})
    <$> rg site_matrix (list string) (Apps result) in
  if decide (0 < length (Others result))
  then matrix ++ [{| Name := "@others"; IsApp := false; Packages := Others result |}]
  else matrix.

(** ** The explain printer: [buildTree] *)

Inductive treeNode := Node (NodePackageName : string) (Children : list treeNode).

Definition root_name (t : treeNode) : string :=
  match t with Node name _ => name end.

(** The package names of a tree, the root first. *)
Fixpoint tree_names (t : treeNode) : list string :=
  match t with
  | Node name children =>
      name :: (fix forest (ts : list treeNode) : list string :=
                 match ts with
                 | [] => []
                 | t' :: ts' => tree_names t' ++ forest ts'
                 end) children
  end.

Definition forest_names (ts : list treeNode) : list string :=
  mjoin (tree_names <$> ts).

(** One round of a loop that calls [buildTreeNode] and keeps the child when
    it is not nil; the state is the slice built so far and the map
    [visited]. *)
Definition tree_step (build : gset string → string → option treeNode * gset string)
    (st : list treeNode * gset string) (pkg : string)
  : list treeNode * gset string :=
  let res := build st.2 pkg in
  (match res.1 with
   | Some child => st.1 ++ [child]
   | None => st.1
   end, res.2).

(** The closure [buildTreeNode], unrolled [n] levels deep.  [visited] holds
    the keys of the map of that name, in which only [true] is ever stored. *)
Fixpoint buildTreeNode (n : nat) (dependencyMap : gmap string (list string))
    (visited : gset string) (pkg : string) : option treeNode * gset string :=
  if decide (pkg ∈ visited) then (None, visited)
  else
    match n with
    | 0 => (Some (Node pkg []), {[pkg]} ∪ visited)
    | S n' =>
        let st := foldl (tree_step (buildTreeNode n' dependencyMap))
                        ([], {[pkg]} ∪ visited)
                        (index_or_nil dependencyMap pkg) in
        (Some (Node pkg st.1), st.2)
    end.

(** No chain of calls is longer than the number of packages that can still
    be visited, so this depth is never exhausted ([buildTreeNode_enough]). *)
Definition tree_depth (dependencyMap : gmap string (list string)) : nat :=
  S (size (dependents_range dependencyMap)).

Definition buildTree (report : Report) : list treeNode :=
  let dependencyMap := build_dependents (AllPackages report) in
  (foldl (tree_step (buildTreeNode (tree_depth dependencyMap) dependencyMap))
         ([], ∅) (PackageName <$> Changes_ report)).1.

(** * Vocabulary of the properties *)

(** ** Order of the sort keys *)

Section KeyOrder.
Context {A : Type} (key : A → string).

Definition key_cmp (a b : A) : comparison := strings_Compare (key a) (key b).
Definition key_le (a b : A) : Prop := key_cmp a b ≠ Gt.
Definition key_lt (a b : A) : Prop := key_cmp a b = Lt.
End KeyOrder.

(** ** The reverse import graph and reachability in it *)

(** [imported_by pkgs x y]: some unit named [y] imports [x], in any of the
    three import classes; the edge [x → y] of the reverse graph. *)
Definition imported_by (pkgs : list Package) (x y : string) : Prop :=
  ∃ p, p ∈ pkgs ∧ ImportPath p = y ∧
       (x ∈ Imports p ∨ x ∈ TestImports p ∨ x ∈ XTestImports p).

(** The least set that contains [S] and is closed under [imported_by]. *)
Inductive affected_from (pkgs : list Package) (S : gset string) : string → Prop :=
  | affected_initial x : x ∈ S → affected_from pkgs S x
  | affected_dependent x y :
      affected_from pkgs S x → imported_by pkgs x y → affected_from pkgs S y.

(** The invariant of the propagation loop: the queue holds marked
    identifiers, and a marked identifier that is not waiting in the queue
    has had its dependents marked. *)
Definition frontier_inv (pkgs : list Package) (marks : gmap string ())
    (queue : list string) : Prop :=
  (∀ x, x ∈ queue → x ∈ dom marks) ∧
  (∀ x, x ∈ dom marks → x ∈ queue ∨ ∀ y, imported_by pkgs x y → y ∈ dom marks).

(** The reconciled change set: the identifiers of [report.Changes]. *)
Definition change_set (report : Report) : gset string :=
  list_to_set (PackageName <$> Changes_ report).

(** The identifiers of an affected-package list, in order. *)
Definition affected_ids (out : list AffectedPackage) : list string :=
  AffectedImportPath <$> out.

(** ** Change records as a mapping *)

(** Every entry of the map is filed under its own package name. *)
Definition keyed (m : gmap string Change) : Prop :=
  ∀ k c, m !! k = Some c → PackageName c = k.

(** The mapping a list of change records stands for: identifier to reasons. *)
Definition reasons_of (ch : list Change) : gmap string (list string) :=
  list_to_map ((λ c, (PackageName c, Reasons c)) <$> ch).

(** ** Ownership of files *)

Section Ownership.
Variable join : string → string → string.

(** The file set of a unit: its source files under its directory. *)
Definition unit_files (p : Package) : list string := join (Dir p) <$> GoFiles p.

(** [f] is a file of a unit named [id]. *)
Definition owned_by (pkgs : list Package) (id f : string) : Prop :=
  Exists (λ p, ImportPath p = id ∧ f ∈ unit_files p) pkgs.

(** [f] is a file of some unit. *)
Definition owned (pkgs : list Package) (f : string) : Prop :=
  Exists (λ p, f ∈ unit_files p) pkgs.

(** The inventory lists a file under one identifier only. *)
Definition one_owner (pkgs : list Package) : Prop :=
  ∀ p q f, p ∈ pkgs → q ∈ pkgs →
           f ∈ unit_files p → f ∈ unit_files q → ImportPath p = ImportPath q.

Global Instance owned_by_dec pkgs id f : Decision (owned_by pkgs id f).
Proof. unfold owned_by. apply _. Defined.

Global Instance owned_dec pkgs f : Decision (owned pkgs f).
Proof. unfold owned. apply _. Defined.
End Ownership.

(** ** Outcomes of the external operations *)

(** The baseline manifest can be fetched, written out and decoded: the
    three calls of [getChangedModules] succeed and yield [oldMod]. *)
Definition baseline_snapshot (env : Env) (r : Rippler) (log : list Event)
    (oldMod : GoMod) : Prop :=
  let tmp := filepath_Join env (os_TempDir env) "go.mod.base" in
  let show := ["git"; "show"; baseBranch r +:+ ":go.mod"] in
  ∃ out out',
    cmd_Output env log show = inl out
    ∧ os_WriteFile env (log ++ [Exec show]) tmp out = None
    ∧ cmd_Output env ((log ++ [Exec show]) ++ [WriteFile tmp out])
                 ["go"; "mod"; "edit"; "-json"; tmp] = inl out'
    ∧ json_Unmarshal_GoMod env out' = inl oldMod.

(** One of the external operations of a run fails: the parse of the current
    manifest, the package listing, the changed-file diff, the manifest diff
    (its change signal or, once the signal fires, the comparison with the
    baseline), or the listing of the resolved dependencies of the baseline
    or of the working tree.  Each is taken at the point of the run where
    [Changes] reaches it. *)
Inductive external_call_fails (env : Env) (r : Rippler) (log0 : list Event) : Prop :=
  | manifest_parse_fails err log :
      parseGoMod env (goModFilePath r) log0 = (inr err, log) →
      external_call_fails env r log0
  | package_listing_fails mod' log1 err log :
      parseGoMod env (goModFilePath r) log0 = (inl mod', log1) →
      listAllPackages env log1 = (inr err, log) →
      external_call_fails env r log0
  | changed_file_diff_fails mod' log1 pkgs log2 err log :
      parseGoMod env (goModFilePath r) log0 = (inl mod', log1) →
      listAllPackages env log1 = (inl pkgs, log2) →
      getChangedGoFiles env r log2 = (inr err, log) →
      external_call_fails env r log0
  | manifest_signal_fails mod' log1 pkgs log2 files log3 err log :
      parseGoMod env (goModFilePath r) log0 = (inl mod', log1) →
      listAllPackages env log1 = (inl pkgs, log2) →
      getChangedGoFiles env r log2 = (inl files, log3) →
      goModHasChanged env r log3 = (inr err, log) →
      external_call_fails env r log0
  | manifest_diff_fails mod' log1 pkgs log2 files log3 log4 err log :
      parseGoMod env (goModFilePath r) log0 = (inl mod', log1) →
      listAllPackages env log1 = (inl pkgs, log2) →
      getChangedGoFiles env r log2 = (inl files, log3) →
      goModHasChanged env r log3 = (inl true, log4) →
      getChangedModules env r mod' log4 = (inr err, log) →
      external_call_fails env r log0
  | baseline_resolution_fails mod' log1 pkgs log2 files log3 ch log5 err log :
      parseGoMod env (goModFilePath r) log0 = (inl mod', log1) →
      listAllPackages env log1 = (inl pkgs, log2) →
      getChangedGoFiles env r log2 = (inl files, log3) →
      affectedPackagesByGoModChange env r
        (with_DirtyFiles (with_AllPackages (with_GoMod emptyReport mod') pkgs) files)
        log3 = (inl ch, log5) →
      getBaseModules env r log5 = (inr err, log) →
      external_call_fails env r log0
  | current_resolution_fails mod' log1 pkgs log2 files log3 ch log5 base log6 err log :
      parseGoMod env (goModFilePath r) log0 = (inl mod', log1) →
      listAllPackages env log1 = (inl pkgs, log2) →
      getChangedGoFiles env r log2 = (inl files, log3) →
      affectedPackagesByGoModChange env r
        (with_DirtyFiles (with_AllPackages (with_GoMod emptyReport mod') pkgs) files)
        log3 = (inl ch, log5) →
      getBaseModules env r log5 = (inl base, log6) →
      getAllModules env log6 = (inr err, log) →
      external_call_fails env r log0.

(** A call of the run went through.  The read of the base revision's
    [go.sum] is the one call whose failure [getBaseModules] lets pass. *)
Definition call_ok (env : Env) (r : Rippler) (before : list Event) (ev : Event)
  : Prop :=
  match ev with
  | Exec argv =>
      (∃ out, cmd_Output env before argv = inl out)
      ∨ argv = ["git"; "show"; baseBranch r +:+ ":go.sum"]
  | WriteFile path content => os_WriteFile env before path content = None
  end.

(** The calls [evs], made in this order after the log [before], all went
    through. *)
Fixpoint calls_ok (env : Env) (r : Rippler) (before evs : list Event) : Prop :=
  match evs with
  | [] => True
  | ev :: evs' => call_ok env r before ev ∧ calls_ok env r (before ++ [ev]) evs'
  end.

(** A computation that returns a value only after calls that went through. *)
Definition clean {A} (env : Env) (r : Rippler) (c : M A) : Prop :=
  ∀ log a log', c log = (inl a, log') →
                ∃ evs, log' = log ++ evs ∧ calls_ok env r log evs.

(** A line of [go list -m] that names module [m] with a version. *)
Definition names_module (env : Env) (m : string) (line : string) : Prop :=
  ∃ v rest, strings_Fields env line = m :: v :: rest.

(** ** Classes of the test plan *)

(** A package of the module that lies outside [<module>/apps/]. *)
Definition in_others (appsPrefix : string) (a : AffectedPackage) : Prop :=
  Indirect a = false ∧ strings_HasPrefix (AffectedImportPath a) appsPrefix = false.

(** A package of the module that lies in the application [app]. *)
Definition in_app (appsPrefix app : string) (a : AffectedPackage) : Prop :=
  Indirect a = false
  ∧ strings_HasPrefix (AffectedImportPath a) appsPrefix = true
  ∧ app_name appsPrefix (AffectedImportPath a) = app.

Global Instance in_others_dec appsPrefix a : Decision (in_others appsPrefix a).
Proof. unfold in_others. apply _. Defined.

Global Instance in_app_dec appsPrefix app a : Decision (in_app appsPrefix app a).
Proof. unfold in_app. apply _. Defined.

(** Every path a plan lists, the others first. *)
Definition plan_packages (p : plan) : list string :=
  Others p ++ mjoin (map_to_list (Apps p)).*2.

(** The bytes of [s] before the first [sep]. *)
Fixpoint take_until (sep : ascii) (s : string) : string :=
  match s with
  | EmptyString => EmptyString
  | String c s' => if Ascii.eqb c sep then EmptyString else String c (take_until sep s')
  end.

(** ** Trees of dependents *)

(** The parent-child pairs of a tree. *)
Fixpoint tree_edges (t : treeNode) : list (string * string) :=
  match t with
  | Node name children =>
      (fix forest (ts : list treeNode) : list (string * string) :=
         match ts with
         | [] => []
         | t' :: ts' => (name, root_name t') :: tree_edges t' ++ forest ts'
         end) children
  end.

Definition forest_edges (ts : list treeNode) : list (string * string) :=
  mjoin (tree_edges <$> ts).

(** [y] is in the dependent list of [x]. *)
Definition dependent_of (dependencyMap : gmap string (list string))
    (x y : string) : Prop :=
  y ∈ index_or_nil dependencyMap x.

(** What a call [build visited pkg] of the tree builder is expected to do:
    nothing on a visited package; otherwise return a tree rooted at [pkg]
    whose nodes are the packages it newly marks, each once, all reached from
    [pkg] along dependent edges and all with their dependents marked. *)
Definition build_ok (dependencyMap : gmap string (list string))
    (build : gset string → string → option treeNode * gset string)
    (visited : gset string) (pkg : string) : Prop :=
  match (build visited pkg).1 with
  | None => pkg ∈ visited ∧ (build visited pkg).2 = visited
  | Some t =>
      pkg ∉ visited
      ∧ root_name t = pkg
      ∧ NoDup (tree_names t)
      ∧ visited ⊆ (build visited pkg).2
      ∧ (∀ x, x ∈ tree_names t ↔ x ∈ (build visited pkg).2 ∧ x ∉ visited)
      ∧ (∀ x y, x ∈ tree_names t → dependent_of dependencyMap x y →
                y ∈ (build visited pkg).2)
      ∧ (∀ x, x ∈ tree_names t → rtc (dependent_of dependencyMap) pkg x)
      ∧ (∀ e, e ∈ tree_edges t → dependent_of dependencyMap e.1 e.2)
  end.

(** The state of the loop of [buildTree] after the changed packages
    [names]: the roots so far and the map [visited]. *)
Definition tree_walk (pkgs : list Package) (names : list string)
  : list treeNode * gset string :=
  let dependencyMap := build_dependents pkgs in
  foldl (tree_step (buildTreeNode (tree_depth dependencyMap) dependencyMap))
        ([], ∅) names.

(** ** The calls a run may make *)

(** The commands of the engine, all of them queries, and its three scratch
    files. *)
Definition allowed_call (env : Env) (r : Rippler) (ev : Event) : Prop :=
  match ev with
  | Exec argv =>
      argv ∈ [ ["go"; "mod"; "edit"; "-json"; goModFilePath r];
               ["go"; "mod"; "edit"; "-json";
                filepath_Join env (os_TempDir env) "go.mod.base"];
               ["go"; "list"; "-json"; "./..."];
               ["git"; "diff"; "--name-only"; baseBranch r];
               ["git"; "diff"; "--name-only"; baseBranch r; "--"; "go.mod"];
               ["git"; "show"; baseBranch r +:+ ":go.mod"];
               ["git"; "show"; baseBranch r +:+ ":go.sum"];
               ["go"; "list"; "-m";
                "-modfile=" +:+ filepath_Join env (os_TempDir env) "go.base.mod";
                "all"];
               ["go"; "list"; "-m"; "all"] ]
  | WriteFile path _ =>
      path ∈ [ filepath_Join env (os_TempDir env) "go.mod.base";
               filepath_Join env (os_TempDir env) "go.base.mod";
               filepath_Join env (os_TempDir env) "go.base.sum" ]
  end.

(** A computation all of whose calls are allowed, whether it returns a value
    or an error. *)
Definition tame {A} (env : Env) (r : Rippler) (c : M A) : Prop :=
  ∀ log, ∃ evs, (c log).2 = log ++ evs ∧ Forall (allowed_call env r) evs.

(** ** Scenarios *)

Definition unit_of (path : string) (imports : list string) : Package :=
  {| Dir := "/src/" +:+ path; GoFiles := ["main.go"]; ImportPath := path;
     Imports := imports; TestImports := []; XTestImports := []; Deps := [] |}.

Definition manifest_of (path : string) (require : list GoModDependency) : GoMod :=
  {| Module := {| Path := path; Version := ""; DepIndirect := false |};
     Go := "1.22"; Require := require; Exclude := []; Replace := []; Tool := [] |}.

(** Module [m]; [m/b] imports [m/a], [m/c] imports [m/b]; a file of [m/a]
    has changed. *)
Definition chain_report : Report :=
  {| ReportGoMod := manifest_of "m" [];
     DirtyFiles := ["/src/m/a/main.go"];
     AllPackages := [unit_of "m/a" []; unit_of "m/b" ["m/a"]; unit_of "m/c" ["m/b"]];
     AffectedPackages := [];
     Changes_ := [{| PackageName := "m/a";
                     Reasons := ["file /src/m/a/main.go has changed"] |}] |}.

(** The chain with a fourth unit [m/w], which imports only the external
    package [ext/other]. *)
Definition bystander_report : Report :=
  {| ReportGoMod := manifest_of "m" [];
     DirtyFiles := ["/src/m/a/main.go"];
     AllPackages := [unit_of "m/a" []; unit_of "m/b" ["m/a"]; unit_of "m/c" ["m/b"];
                     unit_of "m/w" ["ext/other"]];
     AffectedPackages := [];
     Changes_ := [{| PackageName := "m/a";
                     Reasons := ["file /src/m/a/main.go has changed"] |}] |}.

(** Module [m] requires the module [mx], whose version has changed. *)
Definition sibling_report : Report :=
  {| ReportGoMod :=
       manifest_of "m" [{| Path := "mx"; Version := "v1.1.0"; DepIndirect := false |}];
     DirtyFiles := [];
     AllPackages := [unit_of "m/a" ["mx"]];
     AffectedPackages := [];
     Changes_ := [{| PackageName := "mx";
                     Reasons := ["module mx has changed in go.mod"] |}] |}.

Definition slash_join (dir file : string) : string := dir +:+ "/" +:+ file.

(** ** Example environments *)

(** Every command prints nothing and succeeds; every manifest decodes to
    [manifest]. *)
Definition quiet_env (manifest : GoMod) : Env :=
  {| cmd_Output := λ _ _, inl "";
     os_WriteFile := λ _ _ _, None;
     os_TempDir := "/tmp";
     filepath_Join := slash_join;
     filepath_Abs := λ s, inl ("/src/" +:+ s);
     json_Unmarshal_GoMod := λ _, inl manifest;
     json_Decode_Packages := λ _, inl [];
     strings_TrimSpace := λ s, s;
     strings_Fields := λ _, [] |}.

(** No command can be run. *)
Definition broken_env : Env :=
  {| cmd_Output := λ _ _, inr "exit status 1";
     os_WriteFile := λ _ _ _, None;
     os_TempDir := "/tmp";
     filepath_Join := slash_join;
     filepath_Abs := λ s, inl ("/src/" +:+ s);
     json_Unmarshal_GoMod := λ _, inl emptyGoMod;
     json_Decode_Packages := λ _, inl [];
     strings_TrimSpace := λ s, s;
     strings_Fields := λ _, [] |}.

(** Whitespace-separated fields of a line of plain ASCII text. *)
Fixpoint ascii_fields_aux (cur : string) (s : string) : list string :=
  match s with
  | EmptyString => if String.eqb cur "" then [] else [String.rev cur]
  | String c s' =>
      if Ascii.eqb c " "%char
      then (if String.eqb cur "" then ascii_fields_aux "" s'
            else String.rev cur :: ascii_fields_aux "" s')
      else ascii_fields_aux (String c cur) s'
  end.

Definition ascii_fields (s : string) : list string := ascii_fields_aux "" s.

(** A working tree of module [m] on a branch that bumps [ext/lib] from
    v1.0.0 to v1.1.0 and edits a file of [m/z]; the base revision has no
    [go.sum]. *)
Definition bump_env : Env :=
  {| cmd_Output := λ _ argv,
       if decide (argv = ["go"; "mod"; "edit"; "-json"; "/src/go.mod"])
       then inl "current"
       else if decide (argv = ["go"; "mod"; "edit"; "-json"; "/tmp/go.mod.base"])
       then inl "baseline"
       else if decide (argv = ["go"; "list"; "-json"; "./..."])
       then inl "packages"
       else if decide (argv = ["git"; "diff"; "--name-only"; "origin/main"])
       then inl ("m/z/main.go" +:+ newline +:+ "README.md" +:+ newline)
       else if decide (argv = ["git"; "diff"; "--name-only"; "origin/main"; "--"; "go.mod"])
       then inl ("go.mod" +:+ newline)
       else if decide (argv = ["git"; "show"; "origin/main:go.mod"])
       then inl "module m"
       else if decide (argv = ["go"; "list"; "-m"; "-modfile=/tmp/go.base.mod"; "all"])
       then inl ("m" +:+ newline +:+ "ext/lib v1.0.0" +:+ newline +:+ "ext/dep v0.2.0" +:+ newline)
       else if decide (argv = ["go"; "list"; "-m"; "all"])
       then inl ("m" +:+ newline +:+ "ext/lib v1.1.0" +:+ newline +:+ "ext/dep v0.2.0" +:+ newline)
       else inr "exit status 128";
     os_WriteFile := λ _ _ _, None;
     os_TempDir := "/tmp";
     filepath_Join := slash_join;
     filepath_Abs := λ s, inl ("/src/" +:+ s);
     json_Unmarshal_GoMod := λ out,
       if String.eqb out "current"
       then inl (manifest_of "m" [{| Path := "ext/lib"; Version := "v1.1.0";
                                     DepIndirect := false |}])
       else if String.eqb out "baseline"
       then inl (manifest_of "m" [{| Path := "ext/lib"; Version := "v1.0.0";
                                     DepIndirect := false |}])
       else inr "unexpected end of JSON input";
     json_Decode_Packages := λ out,
       if String.eqb out "packages"
       then inl [unit_of "m/x" ["ext/lib"]; unit_of "m/y" ["m/x"]; unit_of "m/z" []]
       else inr "unexpected end of JSON input";
     strings_TrimSpace := λ s, s;
     strings_Fields := ascii_fields |}.

Definition main_rippler : Rippler :=
  {| goModFilePath := "/src/go.mod"; baseBranch := "origin/main" |}.

Definition lib_manifest (version : string) : GoMod :=
  manifest_of "m" [{| Path := "ext/lib"; Version := version; DepIndirect := false |}].

(** The report and the log of a run in [bump_env]. *)
Definition bump_report : Report :=
  default emptyReport (Changes bump_env canonical_order main_rippler []).1.1.

Definition bump_log : list Event :=
  (Changes bump_env canonical_order main_rippler []).2.

(** A source file, as [getChangedGoFiles] tells it from the other lines of
    the diff. *)
Definition is_go_file (line : string) : Prop := strings_HasSuffix line ".go" = true.

Global Instance is_go_file_dec line : Decision (is_go_file line).
Proof. unfold is_go_file. apply _. Defined.

(** Affected packages of module [m] with two applications, a library, the
    module root and an external dependency. *)
Definition plan_input : list AffectedPackage :=
  [ {| AffectedImportPath := "ext/lib"; Indirect := true |};
    {| AffectedImportPath := "m"; Indirect := false |};
    {| AffectedImportPath := "m/apps/cli/cmd"; Indirect := false |};
    {| AffectedImportPath := "m/apps/web"; Indirect := false |};
    {| AffectedImportPath := "m/apps/web/api"; Indirect := false |};
    {| AffectedImportPath := "m/lib"; Indirect := false |} ].

(** * Properties *)

(** ** The byte-wise order of [strings.Compare] *)

Lemma ascii_compare_refl (a : ascii) : Ascii.compare a a = Eq.
Proof. unfold Ascii.compare. apply N.compare_refl. Qed.

Lemma ascii_compare_lt_trans (a b c : ascii) :
  Ascii.compare a b = Lt → Ascii.compare b c = Lt → Ascii.compare a c = Lt.
Proof.
  unfold Ascii.compare. rewrite !N.compare_lt_iff. apply N.lt_trans.
Qed.

Lemma strings_Compare_refl (s : string) : strings_Compare s s = Eq.
Proof.
  unfold strings_Compare. induction s as [|a s IH]; simpl; [done|].
  by rewrite ascii_compare_refl.
Qed.

Lemma strings_Compare_eq (s t : string) : strings_Compare s t = Eq ↔ s = t.
Proof.
  split; [apply String.compare_eq_iff|].
  intros ->. apply strings_Compare_refl.
Qed.

Lemma strings_Compare_antisym (s t : string) :
  strings_Compare s t = CompOpp (strings_Compare t s).
Proof. apply String.compare_antisym. Qed.

Lemma strings_Compare_lt_trans (s t u : string) :
  strings_Compare s t = Lt → strings_Compare t u = Lt → strings_Compare s u = Lt.
Proof.
  unfold strings_Compare. revert t u.
  induction s as [|a s IH]; intros [|b t] [|c u]; simpl; try done.
  destruct (Ascii.compare a b) eqn:Hab; try done.
  - apply Ascii.compare_eq_iff in Hab as ->.
    destruct (Ascii.compare b c); try done. apply IH.
  - destruct (Ascii.compare b c) eqn:Hbc; try done.
    + apply Ascii.compare_eq_iff in Hbc as <-. by rewrite Hab.
    + by rewrite (ascii_compare_lt_trans _ _ _ Hab Hbc).
Qed.

Lemma strings_Compare_lt_irrefl (s : string) : strings_Compare s s ≠ Lt.
Proof. by rewrite strings_Compare_refl. Qed.

(** ** [slices.SortFunc] on keyed records *)

Section SortByKey.
Context {A : Type} (key : A → string).

Lemma key_le_trans a b c : key_le key a b → key_le key b c → key_le key a c.
Proof.
  unfold key_le, key_cmp. intros Hab Hbc.
  destruct (strings_Compare (key a) (key b)) eqn:E1; [| |done].
  { apply strings_Compare_eq in E1. by rewrite E1. }
  destruct (strings_Compare (key b) (key c)) eqn:E2; [| |done].
  { apply strings_Compare_eq in E2. rewrite <-E2, E1. done. }
  by rewrite (strings_Compare_lt_trans _ _ _ E1 E2).
Qed.

Lemma key_lt_trans a b c : key_lt key a b → key_lt key b c → key_lt key a c.
Proof. apply strings_Compare_lt_trans. Qed.

Lemma sort_insert_perm x l : sort_insert (key_cmp key) x l ≡ₚ x :: l.
Proof.
  induction l as [|y l IH]; simpl; [done|].
  destruct (key_cmp key x y); try done; rewrite IH; apply Permutation_swap.
Qed.

Lemma slices_SortFunc_perm l : slices_SortFunc (key_cmp key) l ≡ₚ l.
Proof.
  induction l as [|x l IH]; simpl; [done|].
  by rewrite sort_insert_perm, IH.
Qed.

Lemma sort_insert_sorted x l :
  StronglySorted (key_le key) l →
  StronglySorted (key_le key) (sort_insert (key_cmp key) x l).
Proof.
  induction 1 as [|y l Hl IH Hy]; simpl.
  { repeat constructor. }
  destruct (key_cmp key x y) eqn:E.
  - constructor; [done|]. rewrite sort_insert_perm.
    constructor; [|done]. unfold key_le, key_cmp in *.
    by rewrite strings_Compare_antisym, E.
  - constructor; [by constructor|].
    assert (key_le key x y) as Hxy by (unfold key_le; by rewrite E).
    constructor; [done|].
    eapply Forall_impl; [done|]. intros z Hz. by eapply key_le_trans.
  - constructor; [done|]. rewrite sort_insert_perm.
    constructor; [|done]. unfold key_le, key_cmp in *.
    by rewrite strings_Compare_antisym, E.
Qed.

Lemma slices_SortFunc_sorted l :
  StronglySorted (key_le key) (slices_SortFunc (key_cmp key) l).
Proof.
  induction l as [|x l IH]; simpl; [constructor|]. by apply sort_insert_sorted.
Qed.

Lemma sorted_distinct_strict l :
  NoDup (key <$> l) → StronglySorted (key_le key) l → StronglySorted (key_lt key) l.
Proof.
  induction 2 as [|x l Hl IH Hx]; [constructor|].
  rewrite fmap_cons in H. apply NoDup_cons in H as [Hnin Hnd].
  constructor; [by apply IH|].
  rewrite Forall_forall in Hx |- *. intros y Hy.
  specialize (Hx y Hy). unfold key_le, key_lt, key_cmp in *.
  destruct (strings_Compare (key x) (key y)) eqn:E; try done.
  apply strings_Compare_eq in E. destruct Hnin. rewrite E.
  by apply list_elem_of_fmap_2.
Qed.

(** On pairwise distinct keys the result is strictly ascending. *)
Lemma slices_SortFunc_strict l :
  NoDup (key <$> l) → StronglySorted (key_lt key) (slices_SortFunc (key_cmp key) l).
Proof.
  intros Hnd. apply sorted_distinct_strict; [|apply slices_SortFunc_sorted].
  by rewrite slices_SortFunc_perm.
Qed.

(** A strictly ascending list is determined by its elements. *)
Lemma strictly_sorted_unique l1 l2 :
  StronglySorted (key_lt key) l1 → StronglySorted (key_lt key) l2 → l1 ≡ₚ l2 → l1 = l2.
Proof.
  apply StronglySorted_unique_strong. intros x y _ _ Hxy Hyx.
  destruct (strings_Compare_lt_irrefl (key x)).
  by apply (strings_Compare_lt_trans _ (key y)).
Qed.

Lemma strictly_sorted_NoDup l : StronglySorted (key_lt key) l → NoDup (key <$> l).
Proof.
  induction 1 as [|x l Hl IH Hx]; [constructor|].
  rewrite fmap_cons. apply NoDup_cons. split; [|done].
  intros (y & Hk & Hy)%list_elem_of_fmap. rewrite Forall_forall in Hx.
  specialize (Hx y Hy). unfold key_lt, key_cmp in Hx. rewrite Hk in Hx.
  by apply strings_Compare_lt_irrefl in Hx.
Qed.
End SortByKey.

(** ** The reverse import graph *)

Lemma index_or_nil_insert {A} (m : gmap string (list A)) k l k' :
  index_or_nil (<[k := l]> m) k' = if decide (k = k') then l else index_or_nil m k'.
Proof.
  unfold index_or_nil. rewrite lookup_insert. by case_decide.
Qed.

Lemma add_dependents_lookup p d x y :
  y ∈ index_or_nil (add_dependents d p) x ↔
  y ∈ index_or_nil d x ∨ (y = ImportPath p ∧ x ∈ fullPackageImports p).
Proof.
  unfold add_dependents. generalize (fullPackageImports p) as imps.
  intros imps. revert d. induction imps as [|i imps IH]; intros d; simpl.
  { rewrite elem_of_nil. naive_solver. }
  rewrite IH, index_or_nil_insert, elem_of_cons. case_decide as Hix.
  - subst i. rewrite elem_of_app, list_elem_of_singleton. naive_solver.
  - naive_solver.
Qed.

Lemma elem_of_fullPackageImports p x :
  x ∈ fullPackageImports p ↔ x ∈ Imports p ∨ x ∈ TestImports p ∨ x ∈ XTestImports p.
Proof. unfold fullPackageImports. rewrite !elem_of_app. naive_solver. Qed.

Lemma foldl_add_dependents_lookup pkgs d x y :
  y ∈ index_or_nil (foldl add_dependents d pkgs) x ↔
  y ∈ index_or_nil d x ∨ imported_by pkgs x y.
Proof.
  revert d. induction pkgs as [|p pkgs IH]; intros d; simpl.
  { unfold imported_by. setoid_rewrite elem_of_nil. naive_solver. }
  rewrite IH, add_dependents_lookup, elem_of_fullPackageImports.
  unfold imported_by. setoid_rewrite elem_of_cons. naive_solver.
Qed.

(** The dependent list of [x] holds exactly the units that import [x]. *)
Lemma build_dependents_lookup pkgs x y :
  y ∈ index_or_nil (build_dependents pkgs) x ↔ imported_by pkgs x y.
Proof.
  unfold build_dependents. rewrite foldl_add_dependents_lookup.
  unfold index_or_nil at 1. rewrite lookup_empty. simpl.
  rewrite elem_of_nil. naive_solver.
Qed.

Lemma elem_of_dependents_range d y :
  y ∈ dependents_range d ↔ ∃ x, y ∈ index_or_nil d x.
Proof.
  unfold dependents_range, index_or_nil.
  rewrite elem_of_list_to_set, list_elem_of_join. split.
  - intros (l & Hy & Hl). apply list_elem_of_fmap in Hl as ([x l'] & -> & Hx).
    apply elem_of_map_to_list in Hx. exists x. by rewrite Hx.
  - intros (x & Hy). destruct (d !! x) as [l|] eqn:E; simpl in Hy.
    + exists l. split; [done|]. apply list_elem_of_fmap. exists (x, l).
      split; [done|]. by apply elem_of_map_to_list.
    + by apply elem_of_nil in Hy.
Qed.

Lemma index_or_nil_range d x : ∀ y, y ∈ index_or_nil d x → y ∈ dependents_range d.
Proof. intros y Hy. apply elem_of_dependents_range. eauto. Qed.

(** ** The inner loop *)

Lemma visit_step_dom st dep : dom (visit_step st dep).1 = dom st.1 ∪ {[dep]}.
Proof.
  unfold visit_step. destruct (st.1 !! dep) eqn:E; simpl.
  - apply (elem_of_dom_2 (D:=gset string)) in E. set_solver.
  - rewrite dom_insert_L. set_solver.
Qed.

Lemma visit_dependents_dom deps st :
  dom (visit_dependents deps st).1 = dom st.1 ∪ list_to_set deps.
Proof.
  unfold visit_dependents. revert st.
  induction deps as [|d deps IH]; intros st; simpl; [set_solver|].
  rewrite IH, visit_step_dom. set_solver.
Qed.

(** The inner loop appends exactly the dependents that were unmarked. *)
Lemma visit_dependents_queue deps st :
  ∃ new, (visit_dependents deps st).2 = st.2 ++ new ∧
         ∀ x, x ∈ new ↔ x ∈ deps ∧ x ∉ dom st.1.
Proof.
  unfold visit_dependents. revert st.
  induction deps as [|d deps IH]; intros st; simpl.
  { exists []. rewrite app_nil_r. split; [done|]. intros x.
    rewrite !elem_of_nil. naive_solver. }
  destruct (IH (visit_step st d)) as (new & Hq & Hnew). rewrite Hq.
  pose proof (visit_step_dom st d) as Hdom.
  unfold visit_step in *. destruct (st.1 !! d) eqn:E; simpl in *.
  - exists new. split; [done|]. intros x. rewrite Hnew, elem_of_cons.
    apply (elem_of_dom_2 (D:=gset string)) in E.
    destruct (decide (x = d)); set_solver.
  - exists (d :: new). rewrite <-app_assoc. split; [done|].
    intros x. rewrite !elem_of_cons, Hnew, Hdom.
    apply (not_elem_of_dom (D:=gset string)) in E.
    destruct (decide (x = d)); set_solver.
Qed.

Lemma visit_step_budget U st dep :
  dep ∈ U →
  size (U ∖ dom (visit_step st dep).1) + length (visit_step st dep).2
  = size (U ∖ dom st.1) + length st.2.
Proof.
  intros HU. unfold visit_step. destruct (st.1 !! dep) eqn:E; simpl; [done|].
  apply (not_elem_of_dom (D:=gset string)) in E.
  rewrite dom_insert_L, length_app. simpl.
  assert (U ∖ dom st.1 = {[dep]} ∪ U ∖ ({[dep]} ∪ dom st.1)) as ->.
  { apply set_eq. intros z. destruct (decide (z = dep)); set_solver. }
  rewrite (size_union (C:=gset string) {[dep]} (U ∖ ({[dep]} ∪ dom st.1)))
    by set_solver.
  rewrite size_singleton. lia.
Qed.

Lemma visit_dependents_budget (U : gset string) deps st :
  (∀ x, x ∈ deps → x ∈ U) →
  size (U ∖ dom (visit_dependents deps st).1) + length (visit_dependents deps st).2
  = size (U ∖ dom st.1) + length st.2.
Proof.
  unfold visit_dependents. revert st.
  induction deps as [|d deps IH]; intros st HU; simpl; [done|].
  rewrite IH by set_solver. apply visit_step_budget. set_solver.
Qed.

(** ** The propagation loop *)

Lemma drain_enough dependents n1 n2 marks queue :
  queue_budget dependents marks queue ≤ n1 →
  queue_budget dependents marks queue ≤ n2 →
  drain n1 dependents marks queue = drain n2 dependents marks queue.
Proof.
  revert n2 marks queue.
  induction n1 as [|n1 IH]; intros n2 marks [|current rest]; simpl;
    try (by destruct n2).
  { unfold queue_budget. simpl. lia. }
  intros H1 H2. destruct n2 as [|n2].
  { unfold queue_budget in H2. simpl in H2. lia. }
  simpl. apply IH.
  all: unfold queue_budget in *;
    rewrite (visit_dependents_budget _ _ (marks, rest))
      by apply index_or_nil_range; simpl in *; lia.
Qed.

(** The loop exits at once on an empty queue. *)
Lemma drain_queue_nil dependents marks : drain_queue dependents marks [] = marks.
Proof. unfold drain_queue. by destruct (queue_budget _ _ _). Qed.

(** Otherwise it pops the head, runs the inner loop, and goes round again. *)
Lemma drain_queue_cons dependents marks current rest :
  drain_queue dependents marks (current :: rest) =
  let st := visit_dependents (index_or_nil dependents current) (marks, rest) in
  drain_queue dependents st.1 st.2.
Proof.
  unfold drain_queue at 1.
  assert (queue_budget dependents marks (current :: rest) =
          S (queue_budget dependents
               (visit_dependents (index_or_nil dependents current) (marks, rest)).1
               (visit_dependents (index_or_nil dependents current) (marks, rest)).2))
    as ->.
  { unfold queue_budget.
    rewrite (visit_dependents_budget _ _ (marks, rest))
      by apply index_or_nil_range. simpl. lia. }
  done.
Qed.

(** Induction along the iterations of the loop. *)
Lemma drain_queue_ind dependents (P : gmap string () → list string → Prop) :
  (∀ marks, P marks []) →
  (∀ marks current rest,
     P (visit_dependents (index_or_nil dependents current) (marks, rest)).1
       (visit_dependents (index_or_nil dependents current) (marks, rest)).2 →
     P marks (current :: rest)) →
  ∀ marks queue, P marks queue.
Proof.
  intros Hnil Hcons marks queue.
  remember (queue_budget dependents marks queue) as n eqn:Hn.
  revert marks queue Hn. induction n as [n IH] using lt_wf_ind.
  intros marks [|current rest] Hn; [done|].
  apply Hcons. eapply IH; [|done]. subst n. unfold queue_budget.
  rewrite (visit_dependents_budget _ _ (marks, rest))
    by apply index_or_nil_range. simpl. lia.
Qed.

(** ** Reverse reachability *)

Lemma affected_from_rtc pkgs S x :
  affected_from pkgs S x ↔ ∃ s, s ∈ S ∧ rtc (imported_by pkgs) s x.
Proof.
  split.
  - induction 1 as [x Hx|x y _ (s & Hs & Hsx) Hxy].
    + exists x. split; [done|]. apply rtc_refl.
    + exists s. split; [done|]. by eapply rtc_r.
  - intros (s & Hs & Hsx). revert x Hsx. apply rtc_ind_r.
    + by apply affected_initial.
    + intros y z _ Hyz Hy. by eapply affected_dependent.
Qed.

Lemma affected_from_least pkgs S (T : string → Prop) :
  (∀ x, x ∈ S → T x) →
  (∀ x y, T x → imported_by pkgs x y → T y) →
  ∀ x, affected_from pkgs S x → T x.
Proof. intros HS HT x. induction 1; eauto. Qed.

Lemma affected_from_grow pkgs S S' x :
  (∀ s, s ∈ S' → affected_from pkgs S s) →
  affected_from pkgs S' x → affected_from pkgs S x.
Proof.
  intros HS. apply affected_from_least; [done|].
  intros y z Hy Hyz. by eapply affected_dependent.
Qed.

Section Propagation.
Variable pkgs : list Package.

Local Notation dependents := (build_dependents pkgs).

(** Marks are never removed. *)
Lemma drain_queue_mono marks queue :
  dom marks ⊆ dom (drain_queue dependents marks queue).
Proof.
  revert marks queue. apply (drain_queue_ind dependents).
  - intros marks. by rewrite drain_queue_nil.
  - intros marks current rest IH. rewrite drain_queue_cons. simpl.
    etrans; [|apply IH]. rewrite visit_dependents_dom. set_solver.
Qed.

Lemma frontier_inv_step marks current rest :
  frontier_inv pkgs marks (current :: rest) →
  frontier_inv pkgs
    (visit_dependents (index_or_nil dependents current) (marks, rest)).1
    (visit_dependents (index_or_nil dependents current) (marks, rest)).2.
Proof.
  intros [Hq Hm].
  destruct (visit_dependents_queue (index_or_nil dependents current) (marks, rest))
    as (new & Hnew & Hfresh).
  unfold frontier_inv. rewrite Hnew, visit_dependents_dom. simpl in *. split.
  - intros x [Hx|Hx]%elem_of_app.
    + apply elem_of_union_l, Hq. by right.
    + apply elem_of_union_r, elem_of_list_to_set. by apply Hfresh.
  - intros x [Hx|Hx]%elem_of_union.
    + destruct (Hm x Hx) as [[->|Hin]%elem_of_cons|Hdone].
      * right. intros y Hy. apply elem_of_union_r, elem_of_list_to_set.
        by apply build_dependents_lookup.
      * left. apply elem_of_app. by left.
      * right. intros y Hy. apply elem_of_union_l. by apply Hdone.
    + apply elem_of_list_to_set in Hx.
      destruct (decide (x ∈ dom marks)) as [Hin|Hnin].
      * destruct (Hm x Hin) as [[->|Hin']%elem_of_cons|Hdone].
        -- right. intros y Hy. apply elem_of_union_r, elem_of_list_to_set.
           by apply build_dependents_lookup.
        -- left. apply elem_of_app. by left.
        -- right. intros y Hy. apply elem_of_union_l. by apply Hdone.
      * left. apply elem_of_app. right. by apply Hfresh.
Qed.

(** Completeness: under the invariant, the marks the loop ends with are
    closed under [imported_by]. *)
Lemma drain_queue_closed marks queue :
  frontier_inv pkgs marks queue →
  ∀ x y, x ∈ dom (drain_queue dependents marks queue) →
         imported_by pkgs x y →
         y ∈ dom (drain_queue dependents marks queue).
Proof.
  revert marks queue. apply (drain_queue_ind dependents
    (λ marks queue, frontier_inv pkgs marks queue →
       ∀ x y, x ∈ dom (drain_queue dependents marks queue) →
              imported_by pkgs x y →
              y ∈ dom (drain_queue dependents marks queue))).
  - intros marks [_ Hm] x y. rewrite drain_queue_nil. intros Hx Hxy.
    destruct (Hm x Hx) as [?%elem_of_nil|Hdone]; [done|]. by apply Hdone.
  - intros marks current rest IH Hinv. rewrite drain_queue_cons. simpl.
    by apply IH, frontier_inv_step.
Qed.

(** Soundness: every mark the loop adds is reachable from the marks it
    started with. *)
Lemma drain_queue_sound marks queue :
  (∀ x, x ∈ queue → x ∈ dom marks) →
  ∀ x, x ∈ dom (drain_queue dependents marks queue) →
       affected_from pkgs (dom marks) x.
Proof.
  revert marks queue. apply (drain_queue_ind dependents
    (λ marks queue, (∀ x, x ∈ queue → x ∈ dom marks) →
       ∀ x, x ∈ dom (drain_queue dependents marks queue) →
            affected_from pkgs (dom marks) x)).
  - intros marks _ x. rewrite drain_queue_nil. apply affected_initial.
  - intros marks current rest IH Hq x. rewrite drain_queue_cons. simpl.
    intros Hx. eapply affected_from_grow; [|apply IH; [|done]].
    + intros s. rewrite visit_dependents_dom. simpl.
      intros [Hs|Hs]%elem_of_union; [by apply affected_initial|].
      apply elem_of_list_to_set, build_dependents_lookup in Hs.
      eapply affected_dependent; [|done]. apply affected_initial, Hq. by left.
    + destruct (visit_dependents_queue (index_or_nil dependents current)
                  (marks, rest)) as (new & Hnew & Hfresh).
      rewrite Hnew, visit_dependents_dom. simpl.
      intros z [Hz|Hz]%elem_of_app.
      * apply elem_of_union_l, Hq. by right.
      * apply elem_of_union_r, elem_of_list_to_set. by apply Hfresh.
Qed.
End Propagation.

(** ** The affected set *)

Lemma dom_initial_marks initial :
  dom (initial_marks initial) = list_to_set (PackageName <$> initial).
Proof.
  unfold initial_marks.
  assert (∀ m, dom (foldl (λ (m : gmap string ()) c, <[PackageName c := ()]> m)
                          m initial)
               = dom m ∪ list_to_set (PackageName <$> initial)) as Haux.
  { induction initial as [|c l IH]; intros m; simpl; [set_solver|].
    rewrite IH, dom_insert_L. set_solver. }
  rewrite Haux, dom_empty_L. set_solver.
Qed.

Lemma range_keys (rg : RangeOrder) site {A} (m : gmap string A) x :
  range_ok rg → x ∈ (rg site A m).*1 ↔ x ∈ dom m.
Proof.
  intros Hok. rewrite (Hok site A m), elem_of_dom. split.
  - intros ([k v] & -> & Hkv)%list_elem_of_fmap.
    apply elem_of_map_to_list in Hkv. by exists v.
  - intros [v Hv]. apply list_elem_of_fmap. exists (x, v).
    split; [done|]. by apply elem_of_map_to_list.
Qed.

Lemma range_keys_NoDup (rg : RangeOrder) site {A} (m : gmap string A) :
  range_ok rg → NoDup (rg site A m).*1.
Proof. intros Hok. rewrite (Hok site A m). apply NoDup_fst_map_to_list. Qed.

(** The marks the loop ends with are the identifiers reachable from the
    change set along reverse import edges. *)
Lemma affected_marks_spec rg report x :
  range_ok rg →
  x ∈ dom (affected_marks rg report) ↔
  affected_from (AllPackages report) (change_set report) x.
Proof.
  intros Hok. unfold affected_marks, change_set.
  rewrite <-dom_initial_marks.
  set (marks := initial_marks (Changes_ report)).
  set (queue := (rg site_queue unit marks).*1).
  assert (∀ z, z ∈ queue ↔ z ∈ dom marks) as Hq by (intros z; by apply range_keys).
  split.
  - apply drain_queue_sound. intros z. by apply Hq.
  - assert (frontier_inv (AllPackages report) marks queue) as Hinv.
    { split; intros z Hz; [by apply Hq|]. left. by apply Hq. }
    induction 1 as [z Hz|y z _ IH Hyz].
    + by apply drain_queue_mono.
    + by eapply drain_queue_closed.
Qed.

(** The output lists every mark once. *)
Lemma propagate_ids rg report :
  range_ok rg →
  affected_ids (propagateAffectedPackages rg report)
  ≡ₚ (map_to_list (affected_marks rg report)).*1.
Proof.
  intros Hok. unfold propagateAffectedPackages, affected_ids.
  fold (key_cmp AffectedImportPath).
  rewrite (slices_SortFunc_perm AffectedImportPath), <-list_fmap_compose.
  rewrite (Hok site_out unit _). done.
Qed.

Lemma propagate_ids_spec rg report x :
  range_ok rg →
  x ∈ affected_ids (propagateAffectedPackages rg report) ↔
  affected_from (AllPackages report) (change_set report) x.
Proof.
  intros Hok. rewrite propagate_ids by done.
  rewrite <-affected_marks_spec by done. rewrite elem_of_dom. split.
  - intros ([k v] & -> & Hkv)%list_elem_of_fmap.
    apply elem_of_map_to_list in Hkv. by exists v.
  - intros [v Hv]. apply list_elem_of_fmap. exists (x, v).
    split; [done|]. by apply elem_of_map_to_list.
Qed.

Lemma propagate_strictly_sorted rg report :
  range_ok rg →
  StronglySorted (key_lt AffectedImportPath) (propagateAffectedPackages rg report).
Proof.
  intros Hok. unfold propagateAffectedPackages.
  apply (slices_SortFunc_strict AffectedImportPath).
  rewrite <-list_fmap_compose. apply (range_keys_NoDup rg site_out _ Hok).
Qed.

(** Each entry carries the flag the source computes from its identifier. *)
Lemma propagate_indirect rg report a :
  a ∈ propagateAffectedPackages rg report →
  Indirect a =
  negb (strings_HasPrefix (AffectedImportPath a) (Path (Module (ReportGoMod report)))).
Proof.
  unfold propagateAffectedPackages. fold (key_cmp AffectedImportPath).
  rewrite (slices_SortFunc_perm AffectedImportPath).
  by intros (kv & -> & _)%list_elem_of_fmap.
Qed.

(** The output depends on the report only through the module path, the
    inventory and the set of changed identifiers, and not on the order in
    which the maps were walked. *)
Lemma propagate_order_independent rg1 rg2 report1 report2 :
  range_ok rg1 → range_ok rg2 →
  Path (Module (ReportGoMod report1)) = Path (Module (ReportGoMod report2)) →
  AllPackages report1 = AllPackages report2 →
  change_set report1 = change_set report2 →
  propagateAffectedPackages rg1 report1 = propagateAffectedPackages rg2 report2.
Proof.
  intros Hok1 Hok2 Hmod Hpkgs Hset.
  assert (affected_marks rg1 report1 = affected_marks rg2 report2) as Hmarks.
  { apply map_eq. intros x.
    pose proof (affected_marks_spec rg1 report1 x Hok1) as H1.
    pose proof (affected_marks_spec rg2 report2 x Hok2) as H2.
    rewrite Hpkgs, Hset, <-H2, !elem_of_dom in H1.
    destruct (affected_marks rg1 report1 !! x) as [[]|],
             (affected_marks rg2 report2 !! x) as [[]|]; try done.
    - destruct H1 as [H1 _]. by destruct H1 as [? ?].
    - destruct H1 as [_ H1]. by destruct H1 as [? ?]. }
  apply (strictly_sorted_unique AffectedImportPath);
    [by apply propagate_strictly_sorted..|].
  unfold propagateAffectedPackages. fold (key_cmp AffectedImportPath).
  rewrite !(slices_SortFunc_perm AffectedImportPath).
  rewrite Hmarks, Hmod, (Hok1 site_out unit _), (Hok2 site_out unit _). done.
Qed.

(** ** The claims on [propagateAffectedPackages] *)

(** C1, at the input where the code departs from it: the module is [m] and
    the changed dependency is [mx].  The identifier [mx] neither starts with
    [m/] nor equals [m], yet the entry emitted for it has [Indirect = false],
    because the source tests [strings.HasPrefix] against the bare module
    path. *)
Theorem indirect_flag_of_sibling_module :
  propagateAffectedPackages canonical_order sibling_report
  = [ {| AffectedImportPath := "m/a"; Indirect := false |};
      {| AffectedImportPath := "mx"; Indirect := false |} ]
  ∧ strings_HasPrefix "mx" ("m" +:+ "/") = false
  ∧ "mx" ≠ "m".
Proof. by vm_compute. Qed.

(** C2: the identifiers of the output are exactly those reachable from the
    reconciled change set by zero or more reverse import edges; the set
    contains the change set, is closed under "is imported by", and is
    included in every set with these two properties. *)
Theorem propagation_is_reverse_closure rg report :
  range_ok rg →
  let pkgs := AllPackages report in
  let S := change_set report in
  let out := affected_ids (propagateAffectedPackages rg report) in
  (∀ x, x ∈ out ↔ ∃ s, s ∈ S ∧ rtc (imported_by pkgs) s x) ∧
  (∀ x, x ∈ S → x ∈ out) ∧
  (∀ x y, x ∈ out → imported_by pkgs x y → y ∈ out) ∧
  (∀ T : string → Prop,
     (∀ x, x ∈ S → T x) →
     (∀ x y, T x → imported_by pkgs x y → T y) →
     ∀ x, x ∈ out → T x).
Proof.
  intros Hok pkgs S out. subst pkgs S out. repeat split.
  - intros Hx. by apply affected_from_rtc, (propagate_ids_spec rg report x Hok).
  - intros Hx. by apply (propagate_ids_spec rg report x Hok), affected_from_rtc.
  - intros x Hx. apply (propagate_ids_spec rg report x Hok).
    by apply affected_initial.
  - intros x y Hx Hxy. apply (propagate_ids_spec rg report y Hok).
    eapply affected_dependent; [|done].
    by apply (propagate_ids_spec rg report x Hok).
  - intros T HS HT x Hx. apply (propagate_ids_spec rg report x Hok) in Hx.
    by eapply affected_from_least.
Qed.

Lemma propagation_is_reverse_closure_witness :
  let pkgs := AllPackages chain_report in
  let S := change_set chain_report in
  let out := affected_ids (propagateAffectedPackages canonical_order chain_report) in
  (∀ x, x ∈ out ↔ ∃ s, s ∈ S ∧ rtc (imported_by pkgs) s x) ∧
  (∀ x, x ∈ S → x ∈ out) ∧
  (∀ x y, x ∈ out → imported_by pkgs x y → y ∈ out) ∧
  (∀ T : string → Prop,
     (∀ x, x ∈ S → T x) →
     (∀ x y, T x → imported_by pkgs x y → T y) →
     ∀ x, x ∈ out → T x).
Proof.
  apply (propagation_is_reverse_closure canonical_order chain_report).
  intros site A m. reflexivity.
Defined.

(** C3 as stated fails: in the chain [m/a ← m/b ← m/c] with [m/a] changed,
    the unit [m/c] has an empty dependent list and is not in the change set,
    and it is affected. *)
Lemma leaf_of_chain_is_affected :
  ¬ (∀ rg report u,
       range_ok rg →
       u ∈ AllPackages report →
       index_or_nil (build_dependents (AllPackages report)) (ImportPath u) = [] →
       ImportPath u ∉ change_set report →
       ImportPath u ∉ affected_ids (propagateAffectedPackages rg report)).
Proof.
  intros H.
  apply (H canonical_order chain_report (unit_of "m/c" ["m/b"])).
  - intros site A m. reflexivity.
  - apply (bool_decide_unpack _). by vm_compute.
  - by vm_compute.
  - apply (bool_decide_unpack _). by vm_compute.
  - apply (bool_decide_unpack _). by vm_compute.
Qed.

(** C3, amended: an identifier that is not in the change set and whose
    units import no affected identifier is not in the output. *)
Theorem unit_importing_no_affected_not_affected rg report x :
  range_ok rg →
  x ∉ change_set report →
  (∀ y, imported_by (AllPackages report) y x →
        y ∉ affected_ids (propagateAffectedPackages rg report)) →
  x ∉ affected_ids (propagateAffectedPackages rg report).
Proof.
  intros Hok HS Himp Hx. pose proof Hx as Hx'.
  apply (propagate_ids_spec rg report x Hok) in Hx'.
  destruct Hx' as [x Hx'|y x Hy Hyx]; [done|].
  apply (Himp y Hyx). by apply (propagate_ids_spec rg report y Hok).
Qed.

Lemma unit_importing_no_affected_not_affected_witness :
  unit_of "m/w" ["ext/other"] ∈ AllPackages bystander_report
  ∧ "m/w" ∉ affected_ids (propagateAffectedPackages canonical_order bystander_report).
Proof.
  split; [apply (bool_decide_unpack _); by vm_compute|].
  apply (unit_importing_no_affected_not_affected canonical_order bystander_report
           "m/w").
  - intros site A m. reflexivity.
  - apply (bool_decide_unpack _). by vm_compute.
  - intros y (p & Hp & Hname & Himp).
    apply list_elem_of_In in Hp. simpl in Hp.
    destruct Hp as [<-|[<-|[<-|[<-|[]]]]]; simpl in Hname; try discriminate.
    simpl in Himp. rewrite !elem_of_nil, list_elem_of_singleton in Himp.
    destruct Himp as [->|[[]|[]]].
    apply (bool_decide_unpack _). by vm_compute.
Defined.

(** C7: the output is strictly ascending in the byte-wise order of the
    import paths, hence free of duplicates. *)
Theorem affected_packages_strictly_ascending rg report :
  range_ok rg →
  StronglySorted
    (λ a b, strings_Compare (AffectedImportPath a) (AffectedImportPath b) = Lt)
    (propagateAffectedPackages rg report)
  ∧ NoDup (affected_ids (propagateAffectedPackages rg report)).
Proof.
  intros Hok. split.
  - by apply propagate_strictly_sorted.
  - apply (strictly_sorted_NoDup AffectedImportPath).
    by apply propagate_strictly_sorted.
Qed.

Lemma affected_packages_strictly_ascending_witness :
  StronglySorted
    (λ a b, strings_Compare (AffectedImportPath a) (AffectedImportPath b) = Lt)
    (propagateAffectedPackages reversed_order chain_report)
  ∧ NoDup (affected_ids (propagateAffectedPackages reversed_order chain_report)).
Proof.
  apply (affected_packages_strictly_ascending reversed_order chain_report).
  intros site A m. apply reverse_Permutation.
Defined.

(** ** The change reconciler *)

Lemma unify_step_keyed m c : keyed m → keyed (unify_step m c).
Proof.
  intros Hm k c'. unfold unify_step.
  destruct (m !! PackageName c) as [existing|] eqn:E.
  - rewrite lookup_insert. case_decide as Hk.
    + intros [= <-]. simpl. rewrite <-Hk. by apply Hm.
    + apply Hm.
  - rewrite lookup_insert. case_decide as Hk.
    + by intros [= <-].
    + apply Hm.
Qed.

Lemma foldl_unify_keyed ch m : keyed m → keyed (foldl unify_step m ch).
Proof.
  revert m. induction ch as [|c ch IH]; intros m Hm; simpl; [done|].
  by apply IH, unify_step_keyed.
Qed.

Lemma unified_map_keyed ch : keyed (unified_map ch).
Proof. apply foldl_unify_keyed. by intros k c; rewrite lookup_empty. Qed.

Lemma unify_step_dom m c : dom (unify_step m c) = dom m ∪ {[PackageName c]}.
Proof.
  unfold unify_step. destruct (m !! PackageName c) eqn:E;
    rewrite dom_insert_L; set_solver.
Qed.

Lemma dom_unified_map ch :
  dom (unified_map ch) = list_to_set (PackageName <$> ch).
Proof.
  unfold unified_map.
  assert (∀ m, dom (foldl unify_step m ch)
               = dom m ∪ list_to_set (PackageName <$> ch)) as Haux.
  { induction ch as [|c ch IH]; intros m; simpl; [set_solver|].
    rewrite IH, unify_step_dom. set_solver. }
  rewrite Haux, dom_empty_L. set_solver.
Qed.

(** On records with pairwise distinct names, none of them in the map yet,
    the loop only inserts. *)
Lemma foldl_unify_fresh ch m :
  NoDup (PackageName <$> ch) →
  (∀ c, c ∈ ch → m !! PackageName c = None) →
  foldl unify_step m ch = list_to_map ((λ c, (PackageName c, c)) <$> ch) ∪ m.
Proof.
  revert m. induction ch as [|c ch IH]; intros m Hnd Hfresh; simpl.
  { by rewrite (left_id_L ∅ (∪)). }
  rewrite fmap_cons in Hnd. apply NoDup_cons in Hnd as [Hc Hnd].
  assert (unify_step m c = <[PackageName c := c]> m) as ->.
  { unfold unify_step. rewrite Hfresh; [done|by left]. }
  rewrite IH; [|done|].
  - rewrite <-insert_union_l. symmetry. apply insert_union_r.
    apply not_elem_of_list_to_map. rewrite <-list_fmap_compose. done.
  - intros c' Hc'. rewrite lookup_insert_ne.
    + apply Hfresh. by right.
    + intros Heq. apply Hc. rewrite Heq. by apply list_elem_of_fmap_2.
Qed.

Lemma range_values_keyed (rg : RangeOrder) site (m : gmap string Change) :
  range_ok rg → keyed m →
  (λ c, (PackageName c, c)) <$> (rg site Change m).*2 = rg site Change m.
Proof.
  intros Hok Hm. rewrite <-list_fmap_compose.
  rewrite <-(list_fmap_id (rg site Change m)) at 2.
  apply Forall_fmap_ext_1, Forall_forall. intros [k c] Hkc. simpl.
  rewrite (Hok site Change m) in Hkc. apply elem_of_map_to_list in Hkc.
  by rewrite (Hm k c Hkc).
Qed.

Lemma range_values_names (rg : RangeOrder) site (m : gmap string Change) :
  range_ok rg → keyed m →
  PackageName <$> (rg site Change m).*2 = (rg site Change m).*1.
Proof.
  intros Hok Hm. rewrite <-list_fmap_compose.
  apply Forall_fmap_ext_1, Forall_forall. intros [k c] Hkc. simpl.
  rewrite (Hok site Change m) in Hkc. apply elem_of_map_to_list in Hkc.
  by apply Hm.
Qed.

(** Feeding the reconciler its own output rebuilds the same map. *)
Lemma unified_map_unifyChanges rg ch :
  range_ok rg → unified_map (unifyChanges rg ch) = unified_map ch.
Proof.
  intros Hok. unfold unifyChanges. unfold unified_map at 1.
  pose proof (unified_map_keyed ch) as Hkeyed.
  rewrite foldl_unify_fresh.
  - rewrite (right_id_L ∅ (∪)), range_values_keyed by done.
    rewrite <-(list_to_map_to_list (unified_map ch)) at 2.
    apply list_to_map_proper; [by apply range_keys_NoDup|apply Hok].
  - rewrite range_values_names by done. by apply range_keys_NoDup.
  - intros c _. apply lookup_empty.
Qed.

Lemma unifyChanges_names_NoDup rg ch :
  range_ok rg → NoDup (PackageName <$> unifyChanges rg ch).
Proof.
  intros Hok. unfold unifyChanges.
  rewrite range_values_names by (done || apply unified_map_keyed).
  by apply range_keys_NoDup.
Qed.

Lemma unifyChanges_change_set rg ch :
  range_ok rg →
  list_to_set (PackageName <$> unifyChanges rg ch) =@{gset string}
  list_to_set (PackageName <$> ch).
Proof.
  intros Hok. rewrite <-!dom_unified_map. by rewrite unified_map_unifyChanges.
Qed.

(** C5: reconciling the output of the reconciler changes nothing: the map it
    builds is the same, its output is a rearrangement of its input, both
    hold one record per identifier, and they stand for the same mapping from
    identifiers to reason lists. *)
Theorem unifyChanges_idempotent rg1 rg2 ch :
  range_ok rg1 → range_ok rg2 →
  unified_map (unifyChanges rg1 ch) = unified_map ch
  ∧ unifyChanges rg2 (unifyChanges rg1 ch) ≡ₚ unifyChanges rg1 ch
  ∧ NoDup (PackageName <$> unifyChanges rg1 ch)
  ∧ NoDup (PackageName <$> unifyChanges rg2 (unifyChanges rg1 ch))
  ∧ reasons_of (unifyChanges rg2 (unifyChanges rg1 ch))
    = reasons_of (unifyChanges rg1 ch).
Proof.
  intros Hok1 Hok2.
  assert (unifyChanges rg2 (unifyChanges rg1 ch) ≡ₚ unifyChanges rg1 ch) as Hperm.
  { unfold unifyChanges at 1. rewrite unified_map_unifyChanges by done.
    unfold unifyChanges. by rewrite (Hok2 site_unify Change _), (Hok1 site_unify Change _). }
  repeat split.
  - by apply unified_map_unifyChanges.
  - done.
  - by apply unifyChanges_names_NoDup.
  - by apply unifyChanges_names_NoDup.
  - unfold reasons_of. apply list_to_map_proper.
    + rewrite <-list_fmap_compose. by apply unifyChanges_names_NoDup.
    + by rewrite Hperm.
Qed.

Lemma unifyChanges_idempotent_witness :
  let ch := [ {| PackageName := "m/a"; Reasons := ["file a.go has changed"] |};
              {| PackageName := "ext/lib"; Reasons := ["module ext/lib has changed in go.mod"] |};
              {| PackageName := "m/a"; Reasons := ["file b.go has changed"] |} ] in
  unified_map (unifyChanges canonical_order ch) = unified_map ch
  ∧ unifyChanges reversed_order (unifyChanges canonical_order ch)
    ≡ₚ unifyChanges canonical_order ch
  ∧ NoDup (PackageName <$> unifyChanges canonical_order ch)
  ∧ NoDup (PackageName <$> unifyChanges reversed_order (unifyChanges canonical_order ch))
  ∧ reasons_of (unifyChanges reversed_order (unifyChanges canonical_order ch))
    = reasons_of (unifyChanges canonical_order ch).
Proof.
  intros ch. apply (unifyChanges_idempotent canonical_order reversed_order ch).
  - intros site A m. reflexivity.
  - intros site A m. apply reverse_Permutation.
Defined.

(** ** The file-to-unit mapper *)

Section MapperSpec.
Variable join : string → string → string.

Lemma owned_by_owned pkgs id f : owned_by join pkgs id f → owned join pkgs f.
Proof.
  unfold owned_by, owned. intros H. eapply Exists_impl; [done|]. by intros p [_ ?].
Qed.

Lemma index_unit_lookup (p : Package) (m : gmap string string) f :
  foldl (λ res file, <[join (Dir p) file := ImportPath p]> res) m (GoFiles p) !! f
  = if decide (f ∈ unit_files join p) then Some (ImportPath p) else m !! f.
Proof.
  unfold unit_files. generalize (GoFiles p) as files. intros files. revert m.
  induction files as [|file files IH]; intros m.
  { rewrite decide_False; [done|]. rewrite fmap_nil. apply not_elem_of_nil. }
  cbn [foldl]. rewrite IH, lookup_insert, fmap_cons.
  destruct (decide (f ∈ join (Dir p) <$> files)) as [Hin|Hnin].
  - rewrite decide_True; [done|]. by right.
  - destruct (decide (join (Dir p) file = f)) as [<-|Hne].
    + rewrite decide_True; [done|]. by left.
    + rewrite decide_False; [done|]. by intros [->|?]%elem_of_cons.
Qed.

Lemma index_units_lookup pkgs (m : gmap string string) f id :
  foldl (λ result p,
           foldl (λ res file, <[join (Dir p) file := ImportPath p]> res)
                 result (GoFiles p)) m pkgs !! f = Some id →
  m !! f = Some id ∨ owned_by join pkgs id f.
Proof.
  revert m. induction pkgs as [|p pkgs IH]; intros m; simpl; [by left|].
  intros [H|H]%IH.
  - rewrite index_unit_lookup in H. case_decide as Hf.
    + right. left. naive_solver.
    + by left.
  - right. by right.
Qed.

Lemma index_units_owned pkgs (m : gmap string string) f :
  owned join pkgs f ∨ is_Some (m !! f) →
  is_Some (foldl (λ result p,
                    foldl (λ res file, <[join (Dir p) file := ImportPath p]> res)
                          result (GoFiles p)) m pkgs !! f).
Proof.
  revert m. induction pkgs as [|p pkgs IH]; intros m; simpl.
  { intros [H|H]; [by apply Exists_nil in H|done]. }
  intros H. apply IH. rewrite index_unit_lookup.
  destruct H as [[H|H]%Exists_cons|H].
  - right. by rewrite decide_True.
  - by left.
  - right. case_decide; [done|]. done.
Qed.

Lemma mapPackagesByFile_owned_by pkgs f id :
  mapPackagesByFile join pkgs !! f = Some id → owned_by join pkgs id f.
Proof.
  intros [H|H]%index_units_lookup; [|done]. by rewrite lookup_empty in H.
Qed.

(** When files have one owner, the index sends each file to it. *)
Lemma mapPackagesByFile_spec pkgs f id :
  one_owner join pkgs →
  mapPackagesByFile join pkgs !! f = Some id ↔ owned_by join pkgs id f.
Proof.
  intros Hone. split; [apply mapPackagesByFile_owned_by|].
  intros Hid.
  destruct (index_units_owned pkgs ∅ f) as [id' Hid'].
  { left. by eapply owned_by_owned. }
  fold (mapPackagesByFile join pkgs) in Hid'. rewrite Hid'. f_equal.
  apply mapPackagesByFile_owned_by in Hid'.
  apply Exists_exists in Hid as (p & Hp & <- & Hfp).
  apply Exists_exists in Hid' as (q & Hq & <- & Hfq).
  by eapply Hone.
Qed.

(** The record the grouping loop holds for [id]: the matching files, in
    the order of the changed-file list. *)
Lemma file_changes_lookup (pkgMap : gmap string string) dirty id :
  foldl (file_change_step pkgMap) ∅ dirty !! id =
  match filter (λ f, pkgMap !! f = Some id) dirty with
  | [] => None
  | fs => Some {| PackageName := id; Reasons := file_reason <$> fs |}
  end.
Proof.
  induction dirty as [|f dirty IH] using rev_ind; [apply lookup_empty|].
  rewrite foldl_snoc, filter_app. unfold file_change_step at 1.
  destruct (pkgMap !! f) as [pkg|] eqn:Hf.
  - destruct (decide (pkg = id)) as [->|Hne].
    + rewrite (filter_cons_True _ f []) by done. rewrite filter_nil.
      rewrite IH.
      destruct (filter (λ f0, pkgMap !! f0 = Some id) dirty) as [|f0 fs] eqn:E.
      * by rewrite lookup_insert_eq.
      * rewrite lookup_insert_eq. simpl. by rewrite fmap_app.
    + rewrite (filter_cons_False _ f []) by congruence.
      rewrite filter_nil, app_nil_r, <-IH.
      destruct (foldl (file_change_step pkgMap) ∅ dirty !! pkg);
        by rewrite lookup_insert_ne.
  - rewrite (filter_cons_False _ f []) by congruence.
    by rewrite filter_nil, app_nil_r, <-IH.
Qed.

Lemma file_changes_map_keyed pkgs dirty : keyed (file_changes_map join pkgs dirty).
Proof.
  intros id c. unfold file_changes_map. rewrite file_changes_lookup.
  destruct (filter _ dirty); [done|]. by intros [= <-].
Qed.

(** C6: when every file has one owner, the mapper returns one record per
    unit that owns a changed file; its reasons are one per changed file of
    the unit, in the order of the changed-file list; and changed files that
    no unit owns can be dropped from the input without changing the
    output. *)
Theorem file_changes_one_record_per_unit rg report :
  range_ok rg →
  one_owner join (AllPackages report) →
  let pkgs := AllPackages report in
  let out := affectedPackagesByFileChanges join rg report in
  NoDup (PackageName <$> out)
  ∧ (∀ id, id ∈ PackageName <$> out ↔
           ∃ f, f ∈ DirtyFiles report ∧ owned_by join pkgs id f)
  ∧ (∀ c, c ∈ out →
          Reasons c = file_reason <$>
                      filter (owned_by join pkgs (PackageName c)) (DirtyFiles report))
  ∧ out = affectedPackagesByFileChanges join rg
            (with_DirtyFiles report (filter (owned join pkgs) (DirtyFiles report))).
Proof.
  intros Hok Hone pkgs out. subst out pkgs.
  unfold affectedPackagesByFileChanges.
  set (pkgs := AllPackages report). set (dirty := DirtyFiles report).
  pose proof (file_changes_map_keyed pkgs dirty) as Hkeyed.
  assert (∀ id, filter (λ f, mapPackagesByFile join pkgs !! f = Some id) dirty
                = filter (owned_by join pkgs id) dirty) as Hfilter.
  { intros id. apply list_filter_iff. intros f.
    by apply mapPackagesByFile_spec. }
  assert (∀ id, file_changes_map join pkgs dirty !! id =
                match filter (owned_by join pkgs id) dirty with
                | [] => None
                | fs => Some {| PackageName := id; Reasons := file_reason <$> fs |}
                end) as Hlookup.
  { intros id. unfold file_changes_map. by rewrite file_changes_lookup, Hfilter. }
  repeat split.
  - rewrite range_values_names by done. by apply range_keys_NoDup.
  - rewrite range_values_names by done.
    intros Hid. apply (range_keys rg _ _ _ Hok) in Hid.
    apply elem_of_dom in Hid as [c Hc]. rewrite Hlookup in Hc.
    destruct (filter (owned_by join pkgs id) dirty) as [|f fs] eqn:E; [done|].
    assert (f ∈ filter (owned_by join pkgs id) dirty) as Hf by (rewrite E; by left).
    apply list_elem_of_filter in Hf as [? ?]. by exists f.
  - intros (f & Hf & Hid). rewrite range_values_names by done.
    apply (range_keys rg _ _ _ Hok), elem_of_dom. rewrite Hlookup.
    assert (f ∈ filter (owned_by join pkgs id) dirty) as Hin
      by by apply list_elem_of_filter.
    destruct (filter (owned_by join pkgs id) dirty); [by apply elem_of_nil in Hin|done].
  - intros c ([k c'] & -> & Hkc)%list_elem_of_fmap. simpl.
    rewrite (Hok _ _ _) in Hkc. apply elem_of_map_to_list in Hkc.
    pose proof (Hkeyed _ _ Hkc) as <-. rewrite Hlookup in Hkc.
    destruct (filter (owned_by join pkgs (PackageName c')) dirty); [done|].
    by injection Hkc as <-.
  - simpl. fold pkgs. f_equal. f_equal. apply map_eq. intros id.
    unfold file_changes_map. rewrite !file_changes_lookup.
    rewrite list_filter_filter.
    rewrite (list_filter_iff
               (λ f, mapPackagesByFile join pkgs !! f = Some id ∧ owned join pkgs f)
               (λ f, mapPackagesByFile join pkgs !! f = Some id)); [done|].
    intros f. split; [by intros [? _]|].
    intros Hf. split; [done|].
    by eapply owned_by_owned, mapPackagesByFile_owned_by.
Qed.
End MapperSpec.

Lemma file_changes_one_record_per_unit_witness :
  let pkgs := AllPackages chain_report in
  let out := affectedPackagesByFileChanges slash_join canonical_order chain_report in
  NoDup (PackageName <$> out)
  ∧ (∀ id, id ∈ PackageName <$> out ↔
           ∃ f, f ∈ DirtyFiles chain_report ∧ owned_by slash_join pkgs id f)
  ∧ (∀ c, c ∈ out →
          Reasons c = file_reason <$>
                      filter (owned_by slash_join pkgs (PackageName c))
                             (DirtyFiles chain_report))
  ∧ out = affectedPackagesByFileChanges slash_join canonical_order
            (with_DirtyFiles chain_report
               (filter (owned slash_join pkgs) (DirtyFiles chain_report))).
Proof.
  apply (file_changes_one_record_per_unit slash_join canonical_order chain_report).
  - intros site A m. reflexivity.
  - intros p q f Hp Hq Hfp Hfq. simpl in Hp, Hq.
    rewrite !elem_of_cons, elem_of_nil in Hp, Hq.
    destruct Hp as [->|[->|[->|[]]]], Hq as [->|[->|[->|[]]]];
      apply list_elem_of_singleton in Hfp, Hfq; subst f;
      first [reflexivity | discriminate Hfq].
Defined.

(** ** The manifest differ *)

Lemma changed_modules_filter oldMod currentGoMod :
  changed_modules oldMod currentGoMod =
  Path <$> filter (λ d, old_versions oldMod !! Path d ≠ Some (Version d))
                  (Require currentGoMod).
Proof.
  unfold changed_modules.
  assert (∀ req changed,
            foldl (λ changed d,
                     match old_versions oldMod !! Path d with
                     | Some oldVer =>
                         if decide (oldVer ≠ Version d) then changed ++ [Path d]
                         else changed
                     | None => changed ++ [Path d]
                     end) changed req
            = changed ++ (Path <$> filter (λ d, old_versions oldMod !! Path d
                                                ≠ Some (Version d)) req)) as Haux.
  { induction req as [|d req IH]; intros changed.
    { by rewrite filter_nil, app_nil_r. }
    cbn [foldl]. rewrite IH.
    destruct (old_versions oldMod !! Path d) as [oldVer|] eqn:E.
    - destruct (decide (oldVer ≠ Version d)) as [Hne|Heq].
      + rewrite filter_cons_True by congruence.
        by rewrite fmap_cons, <-app_assoc.
      + apply dec_stable in Heq. by rewrite filter_cons_False by (rewrite E, Heq; auto).
    - rewrite filter_cons_True by (by rewrite E).
      by rewrite fmap_cons, <-app_assoc. }
  apply (Haux _ []).
Qed.

Lemma old_versions_snoc l d :
  foldl (λ (oldSet : gmap string string) d, <[Path d := Version d]> oldSet) ∅ (l ++ [d])
  = <[Path d := Version d]>
      (foldl (λ (oldSet : gmap string string) d, <[Path d := Version d]> oldSet) ∅ l).
Proof. by rewrite foldl_snoc. Qed.

Lemma old_versions_None oldMod p :
  old_versions oldMod !! p = None ↔ p ∉ Path <$> Require oldMod.
Proof.
  unfold old_versions. induction (Require oldMod) as [|d l IH] using rev_ind.
  { cbn [foldl]. rewrite lookup_empty, fmap_nil.
    split; [intros _; apply not_elem_of_nil|done]. }
  rewrite old_versions_snoc, fmap_app, not_elem_of_app, lookup_insert_None, IH.
  rewrite fmap_cons, fmap_nil, list_elem_of_singleton. naive_solver.
Qed.

(** With one entry per path, [oldSet] holds the version of that entry. *)
Lemma old_versions_Some oldMod p v :
  NoDup (Path <$> Require oldMod) →
  old_versions oldMod !! p = Some v ↔
  ∃ d, d ∈ Require oldMod ∧ Path d = p ∧ Version d = v.
Proof.
  unfold old_versions. induction (Require oldMod) as [|d l IH] using rev_ind.
  { intros _. cbn [foldl]. rewrite lookup_empty. split; [done|].
    by intros (d & Hd%elem_of_nil & _). }
  rewrite fmap_app, NoDup_app. intros (Hnd & Hdisj & _).
  rewrite old_versions_snoc, lookup_insert. case_decide as Hp.
  - split.
    + intros [= <-]. exists d. split; [|done]. apply elem_of_app. right. by left.
    + intros (d' & [Hd'|Hd']%elem_of_app & Hpath & <-).
      * destruct (Hdisj (Path d')); [by apply list_elem_of_fmap_2|].
        rewrite Hpath, <-Hp. by left.
      * by apply list_elem_of_singleton in Hd' as ->.
  - rewrite IH by done. split.
    + intros (d' & Hd' & Hrest). exists d'. split; [|done].
      apply elem_of_app. by left.
    + intros (d' & [Hd'|Hd']%elem_of_app & Hpath & Hv).
      * by exists d'.
      * apply list_elem_of_singleton in Hd' as ->. done.
Qed.

(** C4: on decodable snapshots whose baseline lists each path once, the
    differ returns the paths required by the current manifest that the
    baseline lacks or pins at another version, and never a path that only
    the baseline requires. *)
Theorem manifest_differ_reports_added_and_changed env r log oldMod currentGoMod :
  baseline_snapshot env r log oldMod →
  NoDup (Path <$> Require oldMod) →
  ∃ changed log',
    getChangedModules env r currentGoMod log = (inl changed, log')
    ∧ (∀ p, p ∈ changed ↔
            ∃ d, d ∈ Require currentGoMod ∧ Path d = p ∧
                 (p ∉ Path <$> Require oldMod ∨
                  ∃ d0, d0 ∈ Require oldMod ∧ Path d0 = p ∧ Version d0 ≠ Version d))
    ∧ (∀ p, p ∈ Path <$> Require oldMod →
            p ∉ Path <$> Require currentGoMod → p ∉ changed).
Proof.
  intros (out & out' & Hshow & Hwrite & Hedit & Hjson) Hnd.
  eexists _, _. split; [|split].
  - unfold getChangedModules, parseGoMod, bind, wrapf, exec, write_file, lift, ret.
    cbn zeta. rewrite Hshow, Hwrite, Hedit, Hjson. reflexivity.
  - intros p. rewrite changed_modules_filter, list_elem_of_fmap. split.
    + intros (d & -> & [Hd Hin]%list_elem_of_filter). exists d. do 2 (split; [done|]).
      destruct (old_versions oldMod !! Path d) as [v|] eqn:E.
      * right. apply old_versions_Some in E as (d0 & Hd0 & Hpath & <-); [|done].
        exists d0. do 2 (split; [done|]). intros Hv. apply Hd. by rewrite Hv.
      * left. by apply old_versions_None.
    + intros (d & Hin & <- & Hd). exists d. split; [done|].
      apply list_elem_of_filter. split; [|done].
      destruct Hd as [Hd|(d0 & Hd0 & Hpath & Hv)].
      * apply old_versions_None in Hd. by rewrite Hd.
      * assert (old_versions oldMod !! Path d = Some (Version d0)) as E.
        { apply old_versions_Some; [done|]. by exists d0. }
        rewrite E. congruence.
  - intros p _ Hcur. rewrite changed_modules_filter.
    intros (d & -> & [_ Hd]%list_elem_of_filter)%list_elem_of_fmap.
    apply Hcur. by apply list_elem_of_fmap_2.
Qed.

Lemma manifest_differ_reports_added_and_changed_witness :
  ∃ changed log',
    getChangedModules bump_env main_rippler (lib_manifest "v1.1.0") []
    = (inl changed, log')
    ∧ (∀ p, p ∈ changed ↔
            ∃ d, d ∈ Require (lib_manifest "v1.1.0") ∧ Path d = p ∧
                 (p ∉ Path <$> Require (lib_manifest "v1.0.0") ∨
                  ∃ d0, d0 ∈ Require (lib_manifest "v1.0.0") ∧ Path d0 = p ∧
                        Version d0 ≠ Version d))
    ∧ (∀ p, p ∈ Path <$> Require (lib_manifest "v1.0.0") →
            p ∉ Path <$> Require (lib_manifest "v1.1.0") → p ∉ changed).
Proof.
  apply (manifest_differ_reports_added_and_changed
           bump_env main_rippler [] (lib_manifest "v1.0.0") (lib_manifest "v1.1.0")).
  - exists "module m", "baseline". repeat split; reflexivity.
  - apply (bool_decide_unpack _). by vm_compute.
Defined.

(** ** The gate on the manifest diff *)

(** C10: when the diff of [go.mod] against the base reports nothing, the
    stage returns no change, whatever the current manifest requires, and the
    only call it makes is that diff: the baseline manifest is neither
    fetched, nor written out, nor parsed. *)
Theorem manifest_diff_is_gated env r report log log' :
  goModHasChanged env r log = (inl false, log') →
  affectedPackagesByGoModChange env r report log = (inl [], log')
  ∧ log' = log ++ [Exec ["git"; "diff"; "--name-only"; baseBranch r; "--"; "go.mod"]].
Proof.
  intros Hgate. split.
  - unfold affectedPackagesByGoModChange, bind, wrapf. by rewrite Hgate.
  - unfold goModHasChanged, bind, wrapf, exec, ret in Hgate.
    destruct (cmd_Output env log _); by injection Hgate as _ <-.
Qed.

Lemma manifest_diff_is_gated_witness :
  affectedPackagesByGoModChange (quiet_env (lib_manifest "v1.0.0")) main_rippler
    chain_report []
  = (inl [], [Exec ["git"; "diff"; "--name-only"; "origin/main"; "--"; "go.mod"]])
  ∧ [Exec ["git"; "diff"; "--name-only"; "origin/main"; "--"; "go.mod"]]
    = [] ++ [Exec ["git"; "diff"; "--name-only"; baseBranch main_rippler; "--"; "go.mod"]].
Proof.
  apply (manifest_diff_is_gated (quiet_env (lib_manifest "v1.0.0")) main_rippler
           chain_report []).
  reflexivity.
Defined.

(** ** Calls of a successful run *)

Lemma calls_ok_app env r before evs1 evs2 :
  calls_ok env r before evs1 →
  calls_ok env r (before ++ evs1) evs2 →
  calls_ok env r before (evs1 ++ evs2).
Proof.
  revert before. induction evs1 as [|ev evs1 IH]; intros before; simpl.
  { by rewrite app_nil_r. }
  intros [Hev H1] H2. split; [done|]. apply IH; [done|].
  by rewrite <-app_assoc.
Qed.

Lemma calls_ok_elem env r before pre ev post :
  calls_ok env r before (pre ++ ev :: post) → call_ok env r (before ++ pre) ev.
Proof.
  revert before. induction pre as [|ev' pre IH]; intros before; simpl.
  { rewrite app_nil_r. by intros [? _]. }
  intros [_ H]. apply IH in H. by rewrite <-app_assoc in H.
Qed.

Create HintDb clean.

Lemma clean_ret {A} env r (a : A) : clean env r (ret a).
Proof.
  intros log a' log' [= <- <-]. exists []. by rewrite app_nil_r.
Qed.

Lemma clean_lift {A} env r (x : A + error) : clean env r (lift x).
Proof.
  intros log a log' [= -> <-]. exists []. by rewrite app_nil_r.
Qed.

Lemma clean_exec env r argv : clean env r (exec env argv).
Proof.
  intros log out log'. unfold exec. intros [= Hout <-].
  exists [Exec argv]. split; [done|]. simpl. split; [|done]. left. by exists out.
Qed.

Lemma clean_write_file env r path content : clean env r (write_file env path content).
Proof.
  intros log u log'. unfold write_file.
  destruct (os_WriteFile env log path content) eqn:E; [done|].
  intros [= <- <-]. exists [WriteFile path content]. by repeat split.
Qed.

Lemma clean_attempt_go_sum env r :
  clean env r (attempt (exec env ["git"; "show"; baseBranch r +:+ ":go.sum"])).
Proof.
  intros log a log'. unfold attempt, exec. intros [= _ <-].
  eexists [_]. split; [done|]. simpl. split; [|done]. by right.
Qed.

Lemma clean_wrapf {A} env r msg (c : M A) : clean env r c → clean env r (wrapf msg c).
Proof.
  intros Hc log a log'. unfold wrapf.
  destruct (c log) as [[a'|err] log1] eqn:E; [|done].
  intros [= <- <-]. by eapply Hc.
Qed.

Lemma clean_bind {A B} env r (c : M A) (k : A → M B) :
  clean env r c → (∀ a, clean env r (k a)) → clean env r (bind c k).
Proof.
  intros Hc Hk log b log'. unfold bind.
  destruct (c log) as [[a|err] log1] eqn:E; [|done].
  intros Hkb. destruct (Hc _ _ _ E) as (evs1 & -> & H1).
  destruct (Hk _ _ _ _ Hkb) as (evs2 & -> & H2).
  exists (evs1 ++ evs2). split; [by rewrite app_assoc|]. by apply calls_ok_app.
Qed.

#[local] Hint Resolve clean_ret clean_lift clean_exec clean_write_file
  clean_attempt_go_sum clean_wrapf clean_bind : clean.

Lemma clean_parseGoMod env r path : clean env r (parseGoMod env path).
Proof. unfold parseGoMod. auto 10 with clean. Qed.

Lemma clean_listAllPackages env r : clean env r (listAllPackages env).
Proof. unfold listAllPackages. auto 10 with clean. Qed.

Lemma clean_getChangedGoFiles env r : clean env r (getChangedGoFiles env r).
Proof. unfold getChangedGoFiles. auto 10 with clean. Qed.

Lemma clean_goModHasChanged env r : clean env r (goModHasChanged env r).
Proof. unfold goModHasChanged. auto 10 with clean. Qed.

Lemma clean_getChangedModules env r currentGoMod :
  clean env r (getChangedModules env r currentGoMod).
Proof.
  unfold getChangedModules. cbn zeta.
  auto 10 using clean_parseGoMod with clean.
Qed.

Lemma clean_affectedPackagesByGoModChange env r report :
  clean env r (affectedPackagesByGoModChange env r report).
Proof.
  unfold affectedPackagesByGoModChange.
  apply clean_bind; [auto using clean_goModHasChanged with clean|].
  intros []; simpl; auto 10 using clean_getChangedModules with clean.
Qed.

Lemma clean_getAllModules env r : clean env r (getAllModules env).
Proof. unfold getAllModules. auto 10 with clean. Qed.

Lemma clean_getBaseModules env r : clean env r (getBaseModules env r).
Proof.
  unfold getBaseModules. cbn zeta.
  do 3 (apply clean_bind; [auto with clean|intros ?]).
  apply clean_bind; [|auto 10 with clean].
  destruct a1; auto with clean.
Qed.

Lemma clean_affectedPackagesByExternalModule env rg r :
  clean env r (affectedPackagesByExternalModule env rg r).
Proof.
  unfold affectedPackagesByExternalModule, getChangedIndirectModules.
  auto 10 using clean_getBaseModules, clean_getAllModules with clean.
Qed.

(** Every command and every write of a run that returns a report went
    through, the read of the base [go.sum] apart. *)
Lemma Changes_report_calls_ok env rg r log0 report log :
  Changes env rg r log0 = ((Some report, None), log) →
  ∃ evs, log = log0 ++ evs ∧ calls_ok env r log0 evs.
Proof.
  unfold Changes.
  destruct (parseGoMod env (goModFilePath r) log0) as [[mod'|err] log1] eqn:E1;
    [|done].
  destruct (listAllPackages env log1) as [[pkgs|err] log2] eqn:E2; [|done].
  destruct (getChangedGoFiles env r log2) as [[files|err] log3] eqn:E3; [|done].
  destruct (affectedPackagesByGoModChange env r _ log3) as [[ch|err] log4] eqn:E4;
    [|done].
  destruct (affectedPackagesByExternalModule env rg r log4) as [[ch'|err] log5] eqn:E5;
    [|done].
  intros [= _ <-].
  apply (clean_parseGoMod env r) in E1 as (evs1 & -> & H1).
  apply (clean_listAllPackages env r) in E2 as (evs2 & -> & H2).
  apply (clean_getChangedGoFiles env r) in E3 as (evs3 & -> & H3).
  apply (clean_affectedPackagesByGoModChange env r) in E4 as (evs4 & -> & H4).
  apply (clean_affectedPackagesByExternalModule env rg r) in E5 as (evs5 & -> & H5).
  exists (evs1 ++ evs2 ++ evs3 ++ evs4 ++ evs5). split.
  - by rewrite !app_assoc.
  - repeat (apply calls_ok_app; [done|]). done.
Qed.

(** ** Errors of [Changes] *)

(** [Changes] returns a report or an error, never both and never neither. *)
Lemma Changes_report_xor_error env rg r log0 :
  (∃ report log, Changes env rg r log0 = ((Some report, None), log))
  ∨ (∃ err log, Changes env rg r log0 = ((None, Some err), log)).
Proof.
  unfold Changes.
  destruct (parseGoMod env (goModFilePath r) log0) as [[mod'|err] log1]; [|eauto].
  destruct (listAllPackages env log1) as [[pkgs|err] log2]; [|eauto].
  destruct (getChangedGoFiles env r log2) as [[files|err] log3]; [|eauto].
  destruct (affectedPackagesByGoModChange env r _ log3) as [[ch|err] log4]; [|eauto].
  destruct (affectedPackagesByExternalModule env rg r log4) as [[ch'|err] log5];
    eauto.
Qed.

(** C9: a report never comes with an error; when an external operation of
    the run fails, [Changes] returns an error and no report; and so it does
    when any command or write of the run fails, the read of the base
    [go.sum] apart. *)
Theorem changes_error_excludes_report env rg r log0 :
  (∀ report err log, Changes env rg r log0 ≠ ((Some report, Some err), log))
  ∧ (external_call_fails env r log0 →
     ∃ err log, Changes env rg r log0 = ((None, Some err), log))
  ∧ (∀ res before ev after,
       Changes env rg r log0 = (res, log0 ++ before ++ ev :: after) →
       ¬ call_ok env r (log0 ++ before) ev →
       ∃ err, res = (None, Some err)).
Proof.
  split; [|split].
  { intros report err log H.
    destruct (Changes_report_xor_error env rg r log0) as [(?&?&E)|(?&?&E)];
      rewrite E in H; discriminate H. }
  { intros Hfail. unfold Changes.
    destruct Hfail as
      [ err log H1
      | mod' log1 err log H1 H2
      | mod' log1 pkgs log2 err log H1 H2 H3
      | mod' log1 pkgs log2 files log3 err log H1 H2 H3 H4
      | mod' log1 pkgs log2 files log3 log4 err log H1 H2 H3 H4 H5
      | mod' log1 pkgs log2 files log3 ch log5 err log H1 H2 H3 H4 H5
      | mod' log1 pkgs log2 files log3 ch log5 base log6 err log H1 H2 H3 H4 H5 H6 ];
      rewrite H1; try (by eauto); rewrite H2; try (by eauto);
      rewrite H3; try (by eauto).
    - unfold affectedPackagesByGoModChange, bind, wrapf at 1. rewrite H4. eauto.
    - unfold affectedPackagesByGoModChange, bind, wrapf at 1. rewrite H4. cbn.
      unfold wrapf. rewrite H5. eauto.
    - rewrite H4. unfold affectedPackagesByExternalModule, getChangedIndirectModules,
        bind, wrapf. rewrite H5. eauto.
    - rewrite H4. unfold affectedPackagesByExternalModule, getChangedIndirectModules,
        bind, wrapf. rewrite H5, H6. eauto. }
  intros res before ev after Hrun Hfail.
  destruct (Changes_report_xor_error env rg r log0) as [(rep&log&E)|(err&log&E)];
    rewrite E in Hrun; injection Hrun as <- ->; [|by exists err].
  destruct Hfail. apply Changes_report_calls_ok in E as (evs & Hlog & Hok).
  apply app_inv_head in Hlog as <-. by apply calls_ok_elem in Hok.
Qed.

Lemma changes_error_excludes_report_witness :
  ∃ err log,
    Changes broken_env canonical_order main_rippler [] = ((None, Some err), log).
Proof.
  apply (changes_error_excludes_report broken_env canonical_order main_rippler []).
  eapply manifest_parse_fails. reflexivity.
Defined.

(** ** Determinism of the affected-package list *)

Lemma list_to_set_perm (l1 l2 : list string) :
  l1 ≡ₚ l2 → list_to_set l1 =@{gset string} list_to_set l2.
Proof.
  intros Hperm. apply set_eq. intros x. by rewrite !elem_of_list_to_set, Hperm.
Qed.

Lemma changed_indirect_filter rg (baseMods currentMods : gmap string string) :
  changed_indirect rg baseMods currentMods =
  fst <$> filter (λ kv, baseMods !! kv.1 ≠ Some kv.2)
                 (rg site_indirect_modules string currentMods).
Proof.
  unfold changed_indirect.
  assert (∀ (l : list (string * string)) changed,
            foldl (λ changed kv,
                     match baseMods !! kv.1 with
                     | Some oldVer =>
                         if decide (oldVer ≠ kv.2) then changed ++ [kv.1] else changed
                     | None => changed ++ [kv.1]
                     end) changed l
            = changed ++ (fst <$> filter (λ kv, baseMods !! kv.1 ≠ Some kv.2) l))
    as Haux.
  { induction l as [|kv l IH]; intros changed.
    { by rewrite filter_nil, app_nil_r. }
    cbn [foldl]. rewrite IH.
    destruct (baseMods !! kv.1) as [oldVer|] eqn:E.
    - destruct (decide (oldVer ≠ kv.2)) as [Hne|Heq].
      + rewrite filter_cons_True by congruence.
        by rewrite fmap_cons, <-app_assoc.
      + apply dec_stable in Heq.
        by rewrite filter_cons_False by (rewrite E, Heq; auto).
    - rewrite filter_cons_True by (by rewrite E).
      by rewrite fmap_cons, <-app_assoc. }
  apply (Haux _ []).
Qed.

(** The resolved-dependency differ finds the same modules in any order. *)
Lemma changed_indirect_perm rg1 rg2 (baseMods currentMods : gmap string string) :
  range_ok rg1 → range_ok rg2 →
  changed_indirect rg1 baseMods currentMods ≡ₚ changed_indirect rg2 baseMods currentMods.
Proof.
  intros Hok1 Hok2. rewrite !changed_indirect_filter.
  by rewrite (Hok1 _ _ _), (Hok2 _ _ _).
Qed.

Lemma external_module_names (changed : list string) :
  PackageName <$>
    ((λ mod', {| PackageName := mod';
                 Reasons := ["indirect module " +:+ mod' +:+ " has changed in go.sum"] |})
     <$> changed) = changed.
Proof. rewrite <-list_fmap_compose. apply list_fmap_id. Qed.

Lemma affectedPackagesByExternalModule_order env rg1 rg2 r log :
  range_ok rg1 → range_ok rg2 →
  match affectedPackagesByExternalModule env rg1 r log,
        affectedPackagesByExternalModule env rg2 r log with
  | (inl ch1, log1), (inl ch2, log2) =>
      PackageName <$> ch1 ≡ₚ PackageName <$> ch2 ∧ log1 = log2
  | (inr err1, log1), (inr err2, log2) => err1 = err2 ∧ log1 = log2
  | _, _ => False
  end.
Proof.
  intros Hok1 Hok2.
  unfold affectedPackagesByExternalModule, getChangedIndirectModules, bind, wrapf, ret.
  destruct (getBaseModules env r log) as [[baseMods|err] log1]; [|done].
  destruct (getAllModules env log1) as [[currentMods|err] log2]; [|done].
  split; [|done]. rewrite !external_module_names. by apply changed_indirect_perm.
Qed.

Lemma file_changes_order join rg1 rg2 report :
  range_ok rg1 → range_ok rg2 →
  affectedPackagesByFileChanges join rg1 report
  ≡ₚ affectedPackagesByFileChanges join rg2 report.
Proof.
  intros Hok1 Hok2. unfold affectedPackagesByFileChanges.
  by rewrite (Hok1 _ _ _), (Hok2 _ _ _).
Qed.

(** C8: two runs against the same outside world end alike, however the maps
    were walked: both fail with the same error, or both return a report, and
    the two reports hold the same affected-package list. *)
Theorem changes_deterministic env r log0 rg1 rg2 :
  range_ok rg1 → range_ok rg2 →
  match Changes env rg1 r log0, Changes env rg2 r log0 with
  | ((Some report1, None), log1), ((Some report2, None), log2) =>
      AffectedPackages report1 = AffectedPackages report2 ∧ log1 = log2
  | ((None, Some err1), log1), ((None, Some err2), log2) =>
      err1 = err2 ∧ log1 = log2
  | _, _ => False
  end.
Proof.
  intros Hok1 Hok2. unfold Changes.
  destruct (parseGoMod env (goModFilePath r) log0) as [[mod'|err] log1]; [|done].
  destruct (listAllPackages env log1) as [[pkgs|err] log2]; [|done].
  destruct (getChangedGoFiles env r log2) as [[files|err] log3]; [|done].
  destruct (affectedPackagesByGoModChange env r _ log3) as [[ch|err] log4]; [|done].
  pose proof (affectedPackagesByExternalModule_order env rg1 rg2 r log4 Hok1 Hok2)
    as Hext.
  destruct (affectedPackagesByExternalModule env rg1 r log4) as [[ch1|err1] log5],
           (affectedPackagesByExternalModule env rg2 r log4) as [[ch2|err2] log6];
    try done.
  - destruct Hext as [Hperm <-]. split; [|done]. cbn.
    apply propagate_order_independent; try done. unfold change_set. cbn.
    rewrite !unifyChanges_change_set by done.
    apply list_to_set_perm. rewrite !fmap_app.
    by rewrite Hperm, (file_changes_order _ rg1 rg2).
  - destruct Hext as [<- <-]. done.
Qed.

Lemma changes_deterministic_witness :
  match Changes bump_env canonical_order main_rippler [],
        Changes bump_env reversed_order main_rippler [] with
  | ((Some report1, None), log1), ((Some report2, None), log2) =>
      AffectedPackages report1 = AffectedPackages report2 ∧ log1 = log2
  | ((None, Some err1), log1), ((None, Some err2), log2) =>
      err1 = err2 ∧ log1 = log2
  | _, _ => False
  end.
Proof.
  apply (changes_deterministic bump_env main_rippler [] canonical_order reversed_order).
  - intros site A m. reflexivity.
  - intros site A m. apply reverse_Permutation.
Defined.

(** ** Runs of the model *)

Example split_lines_trailing :
  split_lines ("a.go" +:+ newline +:+ "b.md" +:+ newline) = ["a.go"; "b.md"; ""].
Proof. reflexivity. Qed.

Example split_lines_empty : split_lines "" = [""].
Proof. reflexivity. Qed.

Example has_suffix_go :
  strings_HasSuffix "main.go" ".go" = true
  ∧ strings_HasSuffix "README.md" ".go" = false
  ∧ strings_HasSuffix "go" ".go" = false.
Proof. by vm_compute. Qed.

Example has_prefix_module :
  strings_HasPrefix "m/a" "m" = true ∧ strings_HasPrefix "ext/lib" "m" = false.
Proof. by vm_compute. Qed.

(** A changed file of [m/a] reaches [m/b] and [m/c]; all three are owned by
    the module. *)
Example chain_is_propagated :
  affectedPackagesByFileChanges slash_join canonical_order chain_report
  = Changes_ chain_report
  ∧ propagateAffectedPackages canonical_order chain_report
    = [ {| AffectedImportPath := "m/a"; Indirect := false |};
        {| AffectedImportPath := "m/b"; Indirect := false |};
        {| AffectedImportPath := "m/c"; Indirect := false |} ].
Proof. by vm_compute. Qed.

(** A bumped requirement reaches its importer and the importer's importer;
    the two diffs that report it are merged into one record. *)
Example bump_is_reported :
  ∃ report log,
    Changes bump_env reversed_order main_rippler [] = ((Some report, None), log)
    ∧ Changes_ report
      = [ {| PackageName := "ext/lib";
             Reasons := ["module ext/lib has changed in go.mod";
                         "indirect module ext/lib has changed in go.sum"] |};
          {| PackageName := "m/z";
             Reasons := ["file /src/m/z/main.go has changed"] |} ]
    ∧ AffectedPackages report
      = [ {| AffectedImportPath := "ext/lib"; Indirect := true |};
          {| AffectedImportPath := "m/x"; Indirect := false |};
          {| AffectedImportPath := "m/y"; Indirect := false |};
          {| AffectedImportPath := "m/z"; Indirect := false |} ].
Proof. eexists _, _. by vm_compute. Qed.

(** The base revision of that run has no [go.sum]: the read fails, the run
    goes on, and a report is returned. *)
Example missing_base_go_sum_is_skipped :
  cmd_Output bump_env [] ["git"; "show"; "origin/main:go.sum"] = inr "exit status 128"
  ∧ Exec ["git"; "show"; "origin/main:go.sum"]
    ∈ (Changes bump_env canonical_order main_rippler []).2
  ∧ (Changes bump_env canonical_order main_rippler []).1.2 = None.
Proof.
  split; [reflexivity|]. split; [|reflexivity].
  apply (bool_decide_unpack _). by vm_compute.
Qed.

(** * Further properties of the engine *)

(** ** What the reconciler stores for an identifier *)

Lemma unified_map_lookup ch k :
  unified_map ch !! k =
  match filter (λ c, PackageName c = k) ch with
  | [] => None
  | cs => Some {| PackageName := k; Reasons := mjoin (Reasons <$> cs) |}
  end.
Proof.
  unfold unified_map.
  induction ch as [|c ch IH] using rev_ind; [apply lookup_empty|].
  rewrite foldl_snoc, filter_app. unfold unify_step at 1.
  destruct (decide (PackageName c = k)) as [Hk|Hk].
  - rewrite (filter_cons_True _ c []) by done. rewrite filter_nil.
    rewrite Hk, IH.
    destruct (filter (λ c0, PackageName c0 = k) ch) as [|c0 cs] eqn:E.
    + rewrite lookup_insert_eq. simpl. destruct c as [name reasons].
      simpl in *. by rewrite Hk, app_nil_r.
    + rewrite lookup_insert_eq. cbn [PackageName Reasons].
      replace ((c0 :: cs) ++ [c]) with (c0 :: (cs ++ [c])) by done.
      do 2 f_equal. change (c0 :: (cs ++ [c])) with ((c0 :: cs) ++ [c]).
      rewrite fmap_app, join_app. simpl. by rewrite app_nil_r.
  - rewrite (filter_cons_False _ c []) by done.
    rewrite filter_nil, app_nil_r, <-IH.
    destruct (foldl unify_step ∅ ch !! PackageName c); by rewrite lookup_insert_ne.
Qed.

(** X1: the reconciler returns the identifiers of its input, and the record
    of an identifier carries the reasons of all input records of that name,
    concatenated in input order. *)
Theorem unifyChanges_concatenates_reasons rg ch :
  range_ok rg →
  (∀ k, k ∈ PackageName <$> unifyChanges rg ch ↔ k ∈ PackageName <$> ch)
  ∧ (∀ c, c ∈ unifyChanges rg ch →
          Reasons c = mjoin (Reasons <$> filter (λ c', PackageName c' = PackageName c) ch)).
Proof.
  intros Hok. split.
  - intros k. rewrite <-!(elem_of_list_to_set (C:=gset string)).
    by rewrite unifyChanges_change_set.
  - intros c. unfold unifyChanges.
    intros ([k c'] & -> & Hkc)%list_elem_of_fmap. simpl.
    rewrite (Hok _ _ _) in Hkc. apply elem_of_map_to_list in Hkc.
    pose proof (unified_map_keyed _ _ _ Hkc) as <-.
    rewrite unified_map_lookup in Hkc.
    destruct (filter (λ c, PackageName c = PackageName c') ch); [done|].
    by injection Hkc as <-.
Qed.

Lemma unifyChanges_concatenates_reasons_witness :
  let ch := [ {| PackageName := "m/a"; Reasons := ["file a.go has changed"] |};
              {| PackageName := "ext/lib"; Reasons := ["module ext/lib has changed in go.mod"] |};
              {| PackageName := "m/a"; Reasons := ["file b.go has changed"] |} ] in
  (∀ k, k ∈ PackageName <$> unifyChanges reversed_order ch ↔ k ∈ PackageName <$> ch)
  ∧ (∀ c, c ∈ unifyChanges reversed_order ch →
          Reasons c = mjoin (Reasons <$> filter (λ c', PackageName c' = PackageName c) ch)).
Proof.
  intros ch. apply (unifyChanges_concatenates_reasons reversed_order ch).
  intros site A m. apply reverse_Permutation.
Defined.

(** ** Empty and classified outputs of the propagator *)

(** X2: the affected list is empty exactly when there is no change. *)
Theorem propagate_empty_iff rg report :
  range_ok rg →
  propagateAffectedPackages rg report = [] ↔ Changes_ report = [].
Proof.
  intros Hok. split.
  - intros Hout. destruct (Changes_ report) as [|c ch] eqn:E; [done|].
    assert (PackageName c ∈ affected_ids (propagateAffectedPackages rg report)) as Hc.
    { apply (propagate_ids_spec rg report _ Hok), affected_initial.
      unfold change_set. rewrite E. set_solver. }
    rewrite Hout in Hc. by apply elem_of_nil in Hc.
  - intros Hch.
    destruct (propagateAffectedPackages rg report) as [|a out] eqn:E; [done|].
    assert (AffectedImportPath a ∈ affected_ids (propagateAffectedPackages rg report))
      as Ha by (rewrite E; by left).
    apply (propagate_ids_spec rg report _ Hok), affected_from_rtc in Ha
      as (s & Hs & _).
    unfold change_set in Hs. rewrite Hch in Hs. set_solver.
Qed.

Lemma propagate_empty_iff_witness :
  propagateAffectedPackages canonical_order emptyReport = [] ↔ Changes_ emptyReport = [].
Proof.
  apply (propagate_empty_iff canonical_order emptyReport).
  intros site A m. reflexivity.
Defined.

Lemma prefix_refl (s : string) : String.prefix s s = true.
Proof.
  induction s as [|a s IH]; [done|]. simpl.
  destruct (ascii_dec a a); [done|congruence].
Qed.

Lemma prefix_app_l (s t u : string) :
  String.prefix (s +:+ t) u = true → String.prefix s u = true.
Proof.
  revert u. induction s as [|a s IH]; intros u H.
  { by destruct u. }
  destruct u as [|b u]; [done|].
  change (String a s +:+ t) with (String a (s +:+ t)) in H. cbn in *.
  destruct (ascii_dec a b); [by apply IH|done].
Qed.

(** X3: an affected identifier equal to the module path or under
    [<module path>/] is never flagged indirect, and one that does not start
    with the module path always is. *)
Theorem indirect_flag_on_clear_cases rg report a :
  a ∈ propagateAffectedPackages rg report →
  let modPath := Path (Module (ReportGoMod report)) in
  (AffectedImportPath a = modPath
   ∨ strings_HasPrefix (AffectedImportPath a) (modPath +:+ "/") = true →
   Indirect a = false)
  ∧ (strings_HasPrefix (AffectedImportPath a) modPath = false → Indirect a = true).
Proof.
  intros Ha modPath. rewrite (propagate_indirect rg report a Ha). fold modPath.
  unfold strings_HasPrefix. split.
  - intros [->|H].
    + by rewrite prefix_refl.
    + by rewrite (prefix_app_l _ _ _ H).
  - by intros ->.
Qed.

Lemma indirect_flag_on_clear_cases_witness :
  let a := {| AffectedImportPath := "m/b"; Indirect := false |} in
  let modPath := Path (Module (ReportGoMod chain_report)) in
  (AffectedImportPath a = modPath
   ∨ strings_HasPrefix (AffectedImportPath a) (modPath +:+ "/") = true →
   Indirect a = false)
  ∧ (strings_HasPrefix (AffectedImportPath a) modPath = false → Indirect a = true).
Proof.
  intros a.
  apply (indirect_flag_on_clear_cases canonical_order chain_report a).
  apply (bool_decide_unpack _). by vm_compute.
Defined.

(** ** The resolved-dependency differ *)

(** X4: the differ of the resolved dependencies returns, once each, the
    modules of the current resolution that the baseline lacks or resolves to
    another version; a module that only the baseline has is not returned. *)
Theorem changed_indirect_spec rg (baseMods currentMods : gmap string string) :
  range_ok rg →
  NoDup (changed_indirect rg baseMods currentMods)
  ∧ (∀ p, p ∈ changed_indirect rg baseMods currentMods ↔
          ∃ v, currentMods !! p = Some v ∧ baseMods !! p ≠ Some v)
  ∧ (∀ p, currentMods !! p = None → p ∉ changed_indirect rg baseMods currentMods).
Proof.
  intros Hok. rewrite changed_indirect_filter.
  assert (∀ p, p ∈ (filter (λ kv : string * string, baseMods !! kv.1 ≠ Some kv.2)
                           (rg site_indirect_modules string currentMods)).*1 ↔
               ∃ v, currentMods !! p = Some v ∧ baseMods !! p ≠ Some v) as Hmem.
  { intros p. rewrite list_elem_of_fmap. split.
    - intros ([k v] & -> & [Hne Hin]%list_elem_of_filter).
      rewrite (Hok _ _ _) in Hin. apply elem_of_map_to_list in Hin. by exists v.
    - intros (v & Hv & Hne). exists (p, v). split; [done|].
      apply list_elem_of_filter. split; [done|].
      rewrite (Hok _ _ _). by apply elem_of_map_to_list. }
  split; [|split; [done|]].
  - eapply NoDup_fmap_fst.
    + intros k v1 v2 [_ H1]%list_elem_of_filter [_ H2]%list_elem_of_filter.
      rewrite (Hok _ _ _) in H1, H2.
      apply elem_of_map_to_list in H1, H2. congruence.
    + apply NoDup_filter. rewrite (Hok _ _ _). apply NoDup_map_to_list.
  - intros p Hnone (v & Hv & _)%Hmem. congruence.
Qed.

Lemma changed_indirect_spec_witness :
  let baseMods : gmap string string :=
    <["ext/lib" := "v1.0.0"]> (<["ext/old" := "v0.1.0"]> ∅) in
  let currentMods : gmap string string :=
    <["ext/lib" := "v1.1.0"]> (<["ext/new" := "v0.3.0"]> ∅) in
  NoDup (changed_indirect reversed_order baseMods currentMods)
  ∧ (∀ p, p ∈ changed_indirect reversed_order baseMods currentMods ↔
          ∃ v, currentMods !! p = Some v ∧ baseMods !! p ≠ Some v)
  ∧ (∀ p, currentMods !! p = None →
          p ∉ changed_indirect reversed_order baseMods currentMods).
Proof.
  intros baseMods currentMods.
  apply (changed_indirect_spec reversed_order baseMods currentMods).
  intros site A m. apply reverse_Permutation.
Defined.

(** ** The module listing *)

Lemma last_such_snoc_skip {X} (A B : X → Prop) (xs : list X) (x : X) :
  ¬ B x → (∀ y, A y → B y) →
  (∃ before y after, xs ++ [x] = before ++ y :: after ∧ A y ∧
                     ∀ z, z ∈ after → ¬ B z)
  ↔ (∃ before y after, xs = before ++ y :: after ∧ A y ∧ ∀ z, z ∈ after → ¬ B z).
Proof.
  intros HB HAB. split.
  - intros (before & y & after & Heq & Hy & Hafter).
    induction after as [|a after _] using rev_ind.
    { apply app_inj_tail in Heq as [_ <-]. by apply HAB in Hy. }
    rewrite app_comm_cons, app_assoc in Heq. apply app_inj_tail in Heq as [-> <-].
    exists before, y, after. split; [done|]. split; [done|].
    intros z Hz. apply Hafter, elem_of_app. by left.
  - intros (before & y & after & -> & Hy & Hafter).
    exists before, y, (after ++ [x]). split; [by rewrite <-app_assoc|].
    split; [done|]. intros z [Hz|Hz]%elem_of_app; [by apply Hafter|].
    by apply list_elem_of_singleton in Hz as ->.
Qed.

Lemma last_such_snoc_hit {X} (A B : X → Prop) (xs : list X) (x : X) :
  B x →
  (∃ before y after, xs ++ [x] = before ++ y :: after ∧ A y ∧
                     ∀ z, z ∈ after → ¬ B z)
  ↔ A x.
Proof.
  intros HB. split.
  - intros (before & y & after & Heq & Hy & Hafter).
    induction after as [|a after _] using rev_ind.
    { by apply app_inj_tail in Heq as [_ <-]. }
    rewrite app_comm_cons, app_assoc in Heq. apply app_inj_tail in Heq as [_ <-].
    destruct (Hafter x); [|done]. apply elem_of_app. right. by left.
  - intros HA. exists xs, x, []. split; [done|]. split; [done|].
    by intros z ?%elem_of_nil.
Qed.

(** X5: the version recorded for a module is the second field of the last
    line whose first field is the module; lines with fewer than two fields
    record nothing. *)
Theorem parse_modules_last_line env out m v :
  parse_modules env out !! m = Some v ↔
  ∃ before line after,
    split_lines out = before ++ line :: after
    ∧ (∃ rest, strings_Fields env line = m :: v :: rest)
    ∧ ∀ line', line' ∈ after → ¬ names_module env m line'.
Proof.
  unfold parse_modules. generalize (split_lines out) as lines. intros lines.
  induction lines as [|l lines IH] using rev_ind.
  { cbn [foldl]. rewrite lookup_empty. split; [done|].
    intros (before & line & after & H & _). by destruct before. }
  rewrite foldl_snoc.
  assert (∀ y, (∃ rest, strings_Fields env y = m :: v :: rest) → names_module env m y)
    as Himp by (intros y [rest H]; by exists v, rest).
  destruct (strings_Fields env l) as [|f0 [|f1 fs]] eqn:E.
  - rewrite IH. symmetry. apply last_such_snoc_skip; [|done].
    intros (v' & rest' & H). congruence.
  - rewrite IH. symmetry. apply last_such_snoc_skip; [|done].
    intros (v' & rest' & H). congruence.
  - rewrite lookup_insert. case_decide as Hm.
    + subst f0. rewrite last_such_snoc_hit by (by exists f1, fs).
      rewrite E. split; [intros [= <-]; by exists fs|].
      by intros (rest & [= <- _]).
    + rewrite IH. symmetry. apply last_such_snoc_skip; [|done].
      intros (v' & rest' & H). congruence.
Qed.

(** ** The changed-file list *)

Lemma go_files_of_acc env lines acc :
  go_files_of env lines acc =
  match go_files_of env lines [] with
  | inl files => inl (acc ++ files)
  | inr err => inr err
  end.
Proof.
  revert acc. induction lines as [|line lines IH]; intros acc; simpl.
  { by rewrite app_nil_r. }
  destruct (negb (strings_HasSuffix line ".go")); [apply IH|].
  destruct (filepath_Abs env line) as [abs|fpErr]; [|done].
  rewrite (IH (acc ++ [abs])), (IH [abs]).
  destruct (go_files_of env lines []); [|done]. by rewrite <-app_assoc.
Qed.

(** X6: the changed-file list holds the absolute paths of the lines that end
    in [.go], in the order of the diff, and nothing else; the loop fails
    exactly when one of these lines has no absolute path, with the error of
    the first such line, and lines of other files are never resolved. *)
Theorem go_files_of_spec env lines :
  (∀ files,
     go_files_of env lines [] = inl files ↔
     Forall2 (λ line file, filepath_Abs env line = inl file)
             (filter is_go_file lines) files)
  ∧ (∀ err,
       go_files_of env lines [] = inr err ↔
       ∃ before line after fpErr,
         filter is_go_file lines = before ++ line :: after
         ∧ Forall (λ l, ∃ file, filepath_Abs env l = inl file) before
         ∧ filepath_Abs env line = inr fpErr
         ∧ err = errorf ("failed to get absolute path for " +:+ line) fpErr).
Proof.
  induction lines as [|line lines [IHok IHerr]].
  { split.
    - intros files. simpl. rewrite filter_nil. split.
      + intros [= <-]. constructor.
      + by intros ->%Forall2_nil_inv_l.
    - intros err. simpl. split; [done|].
      intros (before & l & after & e & H & _). rewrite filter_nil in H.
      by destruct before. }
  cbn [go_files_of]. destruct (strings_HasSuffix line ".go") eqn:Hgo; cbn [negb].
  2: { rewrite filter_cons_False by (unfold is_go_file; congruence). done. }
  rewrite filter_cons_True by done.
  destruct (filepath_Abs env line) as [abs|fpErr] eqn:Habs.
  - rewrite go_files_of_acc. split.
    + intros files. destruct (go_files_of env lines []) as [fs|e] eqn:E.
      * split.
        -- intros [= <-]. constructor; [done|]. by apply IHok.
        -- intros Hall. apply Forall2_cons_inv_l in Hall as (f & fs' & Hf & Hfs & ->).
           apply IHok in Hfs. simpl. congruence.
      * split; [done|]. intros Hall.
        apply Forall2_cons_inv_l in Hall as (f & fs' & Hf & Hfs & ->).
        apply IHok in Hfs. congruence.
    + intros err. destruct (go_files_of env lines []) as [fs|e] eqn:E.
      * split; [done|]. intros (before & l & after & e & Heq & Hbefore & Hl & ->).
        destruct before as [|b before]; simplify_eq/=; [congruence|].
        apply Forall_cons in Hbefore as [_ Hbefore].
        assert (@inl (list string) error fs = inr (errorf ("failed to get absolute path for " +:+ l) e))
          as Hbad; [|done].
        apply IHerr. by exists before, l, after, e.
      * split.
        -- intros [= <-].
           destruct (proj1 (IHerr e) eq_refl) as (before & l & after & e' & Heq & ? & ? & ->).
           exists (line :: before), l, after, e'. rewrite Heq.
           split; [done|]. split; [|done]. constructor; [by exists abs|done].
        -- intros (before & l & after & e' & Heq & Hbefore & Hl & ->).
           destruct before as [|b before]; simplify_eq/=; [congruence|].
           apply Forall_cons in Hbefore as [_ Hbefore]. f_equal.
           assert (@inr (list string) error e = inr (errorf ("failed to get absolute path for " +:+ l) e'))
             as Heq'; [|by injection Heq'].
           apply IHerr. by exists before, l, after, e'.
  - split.
    + intros files. split; [done|].
      intros (f & fs' & Hf & _)%Forall2_cons_inv_l. congruence.
    + intros err. split.
      * intros [= <-]. exists [], line, (filter is_go_file lines), fpErr. by repeat split.
      * intros (before & l & after & e' & Heq & Hbefore & Hl & ->).
        destruct before as [|b before]; simplify_eq/=; [congruence|].
        apply Forall_cons in Hbefore as [[f Hf] _]. congruence.
Qed.

(** ** The file index *)

Lemma index_units_not_owned join pkgs (m : gmap string string) f :
  ¬ owned join pkgs f →
  foldl (λ result p,
           foldl (λ res file, <[join (Dir p) file := ImportPath p]> res)
                 result (GoFiles p)) m pkgs !! f = m !! f.
Proof.
  revert m. induction pkgs as [|p pkgs IH]; intros m Hno; [done|].
  cbn [foldl]. rewrite IH.
  - rewrite index_unit_lookup, decide_False; [done|].
    intros Hf. apply Hno. by left.
  - intros Hf. apply Hno. by right.
Qed.

(** X7: a changed file that no unit lists is absent from the index, and a
    file listed by several units is indexed under the last of them in
    inventory order. *)
Theorem mapPackagesByFile_last_owner join pkgs f :
  (mapPackagesByFile join pkgs !! f = None ↔ ¬ owned join pkgs f)
  ∧ (∀ before p after,
       pkgs = before ++ p :: after →
       f ∈ unit_files join p →
       ¬ owned join after f →
       mapPackagesByFile join pkgs !! f = Some (ImportPath p)).
Proof.
  split.
  - split.
    + intros Hnone Howned.
      destruct (index_units_owned join pkgs ∅ f) as [id Hid]; [by left|].
      fold (mapPackagesByFile join pkgs) in Hid. congruence.
    + intros Hno. unfold mapPackagesByFile.
      by rewrite index_units_not_owned.
  - intros before p after -> Hp Hafter. unfold mapPackagesByFile.
    rewrite foldl_app. cbn [foldl].
    rewrite index_units_not_owned by done.
    by rewrite index_unit_lookup, decide_True.
Qed.

(** ** The report of a successful run *)

Lemma file_changes_reasons join rg report c :
  range_ok rg →
  c ∈ affectedPackagesByFileChanges join rg report → Reasons c ≠ [].
Proof.
  intros Hok. unfold affectedPackagesByFileChanges.
  intros ([k c'] & -> & Hkc)%list_elem_of_fmap. simpl.
  rewrite (Hok _ _ _) in Hkc. apply elem_of_map_to_list in Hkc.
  unfold file_changes_map in Hkc. rewrite file_changes_lookup in Hkc.
  destruct (filter _ (DirtyFiles report)); [done|]. by injection Hkc as <-.
Qed.

Lemma gomod_changes_reasons env r report log ch log' c :
  affectedPackagesByGoModChange env r report log = (inl ch, log') →
  c ∈ ch → Reasons c ≠ [].
Proof.
  unfold affectedPackagesByGoModChange, bind, wrapf, ret.
  destruct (goModHasChanged env r log) as [[[]|] log1]; simpl; try done.
  - destruct (getChangedModules env r (ReportGoMod report) log1) as [[mods|] log2];
      [|done].
    intros [= <- _] (m & -> & _)%list_elem_of_fmap. done.
  - by intros [= <- _] ?%elem_of_nil.
Qed.

Lemma external_changes_reasons env rg r log ch log' c :
  affectedPackagesByExternalModule env rg r log = (inl ch, log') →
  c ∈ ch → Reasons c ≠ [].
Proof.
  unfold affectedPackagesByExternalModule, bind, wrapf, ret.
  destruct (getChangedIndirectModules env rg r log) as [[mods|] log1]; [|done].
  intros [= <- _] (m & -> & _)%list_elem_of_fmap. done.
Qed.

Lemma unifyChanges_reasons rg ch c :
  range_ok rg →
  (∀ c', c' ∈ ch → Reasons c' ≠ []) →
  c ∈ unifyChanges rg ch → Reasons c ≠ [].
Proof.
  intros Hok Hch Hc.
  assert (∀ k, k ∈ PackageName <$> unifyChanges rg ch ↔ k ∈ PackageName <$> ch)
    as Hnames.
  { intros k. rewrite <-!(elem_of_list_to_set (C:=gset string)).
    by rewrite unifyChanges_change_set. }
  assert (Reasons c
          = mjoin (Reasons <$> filter (λ c', PackageName c' = PackageName c) ch))
    as ->.
  { revert Hc. unfold unifyChanges.
    intros ([k c'] & -> & Hkc)%list_elem_of_fmap. simpl.
    rewrite (Hok _ _ _) in Hkc. apply elem_of_map_to_list in Hkc.
    pose proof (unified_map_keyed _ _ _ Hkc) as <-.
    rewrite unified_map_lookup in Hkc.
    destruct (filter (λ c, PackageName c = PackageName c') ch); [done|].
    by injection Hkc as <-. }
  assert (PackageName c ∈ PackageName <$> ch) as Hin.
  { apply Hnames. by apply list_elem_of_fmap_2. }
  apply list_elem_of_fmap in Hin as (c0 & Hname & Hc0).
  assert (c0 ∈ filter (λ c', PackageName c' = PackageName c) ch) as Hf
    by by apply list_elem_of_filter.
  intros Hnil. apply join_nil_1 in Hnil. rewrite Forall_forall in Hnil.
  apply (Hch c0 Hc0), Hnil. by apply list_elem_of_fmap_2.
Qed.

(** X8: in the report of a successful run the change records have pairwise
    distinct identifiers and at least one reason each, every changed
    identifier is among the affected packages, and propagating the report
    again gives the affected list it already holds. *)
Theorem report_is_consistent env rg r log0 report log :
  range_ok rg →
  Changes env rg r log0 = ((Some report, None), log) →
  NoDup (PackageName <$> Changes_ report)
  ∧ (∀ c, c ∈ Changes_ report → Reasons c ≠ [])
  ∧ (∀ c, c ∈ Changes_ report →
          PackageName c ∈ affected_ids (AffectedPackages report))
  ∧ AffectedPackages report = propagateAffectedPackages rg report.
Proof.
  intros Hok. unfold Changes.
  destruct (parseGoMod env (goModFilePath r) log0) as [[mod'|err] log1]; [|done].
  destruct (listAllPackages env log1) as [[pkgs|err] log2]; [|done].
  destruct (getChangedGoFiles env r log2) as [[files|err] log3]; [|done].
  destruct (affectedPackagesByGoModChange env r _ log3) as [[ch|err] log4] eqn:E4;
    [|done].
  destruct (affectedPackagesByExternalModule env rg r log4) as [[ch'|err] log5] eqn:E5;
    [|done].
  intros [= <- _].
  set (changes := (affectedPackagesByFileChanges _ _ _ ++ ch) ++ ch').
  set (rep := with_Changes _ (unifyChanges rg changes)).
  change (NoDup (PackageName <$> unifyChanges rg changes)
          ∧ (∀ c, c ∈ unifyChanges rg changes → Reasons c ≠ [])
          ∧ (∀ c, c ∈ unifyChanges rg changes →
                  PackageName c ∈ affected_ids (propagateAffectedPackages rg rep))
          ∧ propagateAffectedPackages rg rep = propagateAffectedPackages rg rep).
  split; [|split; [|split; [|done]]].
  - by apply unifyChanges_names_NoDup.
  - intros c. apply unifyChanges_reasons; [done|].
    intros c' [[Hc'|Hc']%elem_of_app|Hc']%elem_of_app.
    + by eapply file_changes_reasons.
    + by eapply gomod_changes_reasons.
    + by eapply external_changes_reasons.
  - intros c Hc. apply (propagate_ids_spec rg rep _ Hok).
    apply affected_initial. unfold change_set.
    apply elem_of_list_to_set.
    by apply (list_elem_of_fmap_2 PackageName (unifyChanges rg changes)).
Qed.

Lemma report_is_consistent_witness :
  NoDup (PackageName <$> Changes_ bump_report)
  ∧ (∀ c, c ∈ Changes_ bump_report → Reasons c ≠ [])
  ∧ (∀ c, c ∈ Changes_ bump_report →
          PackageName c ∈ affected_ids (AffectedPackages bump_report))
  ∧ AffectedPackages bump_report
    = propagateAffectedPackages canonical_order bump_report.
Proof.
  apply (report_is_consistent bump_env canonical_order main_rippler []
           bump_report bump_log).
  - intros site A m. reflexivity.
  - by vm_compute.
Defined.

(** ** The test plan *)

Lemma foldl_insert_fresh (l : list AffectedPackage) (m : gmap string AffectedPackage) :
  NoDup (AffectedImportPath <$> l) →
  (∀ a, a ∈ l → m !! AffectedImportPath a = None) →
  foldl (λ affected pkg, <[AffectedImportPath pkg := pkg]> affected) m l
  = list_to_map ((λ a, (AffectedImportPath a, a)) <$> l) ∪ m.
Proof.
  revert m. induction l as [|a l IH]; intros m Hnd Hfresh; simpl.
  { by rewrite (left_id_L ∅ (∪)). }
  rewrite fmap_cons in Hnd. apply NoDup_cons in Hnd as [Ha Hnd].
  rewrite IH; [|done|].
  - rewrite <-insert_union_l. symmetry. apply insert_union_r.
    apply not_elem_of_list_to_map. by rewrite <-list_fmap_compose.
  - intros a' Ha'. rewrite lookup_insert_ne.
    + apply Hfresh. by right.
    + intros Heq. apply Ha. rewrite Heq. by apply list_elem_of_fmap_2.
Qed.

(** With one entry per import path, the second loop of [buildPlan] walks the
    entries of its argument, in some order. *)
Lemma plan_index_values rg (l : list AffectedPackage) :
  range_ok rg →
  NoDup (AffectedImportPath <$> l) →
  (rg site_plan AffectedPackage (plan_index l)).*2 ≡ₚ l.
Proof.
  intros Hok Hnd. rewrite (Hok _ _ _). unfold plan_index.
  rewrite foldl_insert_fresh; [|done|by intros a _; apply lookup_empty].
  rewrite (right_id_L ∅ (∪)), map_to_list_to_map.
  - rewrite <-list_fmap_compose.
    by rewrite (list_fmap_id l : (snd ∘ (λ a, (AffectedImportPath a, a))) <$> l = l).
  - by rewrite <-list_fmap_compose.
Qed.

Lemma plan_step_apps_insert pre r a :
  Indirect a = false →
  strings_HasPrefix (AffectedImportPath a) pre = true →
  Apps (plan_step pre r a)
  = <[app_name pre (AffectedImportPath a) :=
        index_or_nil (Apps r) (app_name pre (AffectedImportPath a))
        ++ [AffectedImportPath a]]> (Apps r).
Proof.
  intros Hind Hpre. unfold plan_step. rewrite Hind, Hpre. cbn.
  unfold index_or_nil.
  destruct (Apps r !! app_name pre (AffectedImportPath a)) as [group|] eqn:E.
  - by rewrite E.
  - by rewrite lookup_insert_eq, insert_insert_eq.
Qed.

Lemma plan_step_others pre r a :
  Others (plan_step pre r a)
  = Others r ++ (if decide (in_others pre a) then [AffectedImportPath a] else []).
Proof.
  unfold plan_step. destruct (decide (in_others pre a)) as [[Hind Hpre]|Hno].
  - by rewrite Hind, Hpre.
  - destruct (Indirect a) eqn:Hind; [by rewrite app_nil_r|].
    destruct (strings_HasPrefix (AffectedImportPath a) pre) eqn:Hpre; cbn;
      [by rewrite app_nil_r|].
    by destruct Hno.
Qed.

Lemma plan_step_group pre r a app :
  index_or_nil (Apps (plan_step pre r a)) app
  = index_or_nil (Apps r) app
    ++ (if decide (in_app pre app a) then [AffectedImportPath a] else []).
Proof.
  destruct (decide (in_app pre app a)) as [(Hind & Hpre & Happ)|Hno].
  - rewrite plan_step_apps_insert by done.
    rewrite index_or_nil_insert, decide_True by done. by rewrite Happ.
  - rewrite app_nil_r. destruct (Indirect a) eqn:Hind.
    { unfold plan_step. by rewrite Hind. }
    destruct (strings_HasPrefix (AffectedImportPath a) pre) eqn:Hpre.
    2: { unfold plan_step. by rewrite Hind, Hpre. }
    rewrite plan_step_apps_insert by done.
    rewrite index_or_nil_insert, decide_False; [done|].
    intros Happ. by destruct Hno.
Qed.

Lemma plan_step_absent pre r a app :
  Apps (plan_step pre r a) !! app = None ↔
  Apps r !! app = None ∧ ¬ in_app pre app a.
Proof.
  destruct (Indirect a) eqn:Hind.
  { unfold plan_step, in_app. rewrite Hind. naive_solver. }
  destruct (strings_HasPrefix (AffectedImportPath a) pre) eqn:Hpre.
  2: { unfold plan_step, in_app. rewrite Hind, Hpre. cbn. naive_solver. }
  rewrite plan_step_apps_insert by done. rewrite lookup_insert_None.
  unfold in_app. naive_solver.
Qed.

Lemma foldl_plan_step_others pre r l :
  Others (foldl (plan_step pre) r l)
  = Others r ++ (AffectedImportPath <$> filter (in_others pre) l).
Proof.
  revert r. induction l as [|a l IH]; intros r; cbn [foldl].
  { by rewrite filter_nil, app_nil_r. }
  rewrite IH, plan_step_others. case_decide.
  - rewrite filter_cons_True by done. by rewrite fmap_cons, <-app_assoc.
  - rewrite filter_cons_False by done. by rewrite app_nil_r.
Qed.

Lemma foldl_plan_step_group pre r l app :
  index_or_nil (Apps (foldl (plan_step pre) r l)) app
  = index_or_nil (Apps r) app ++ (AffectedImportPath <$> filter (in_app pre app) l).
Proof.
  revert r. induction l as [|a l IH]; intros r; cbn [foldl].
  { by rewrite filter_nil, app_nil_r. }
  rewrite IH, plan_step_group. case_decide.
  - rewrite filter_cons_True by done. by rewrite fmap_cons, <-app_assoc.
  - rewrite filter_cons_False by done. by rewrite app_nil_r.
Qed.

Lemma foldl_plan_step_absent pre r l app :
  Apps (foldl (plan_step pre) r l) !! app = None ↔
  Apps r !! app = None ∧ filter (in_app pre app) l = [].
Proof.
  revert r. induction l as [|a l IH]; intros r; cbn [foldl].
  { rewrite filter_nil. naive_solver. }
  rewrite IH, plan_step_absent. destruct (decide (in_app pre app a)).
  - rewrite filter_cons_True by done. naive_solver.
  - rewrite filter_cons_False by done. naive_solver.
Qed.

Lemma index_or_nil_empty {A} k : index_or_nil (∅ : gmap string (list A)) k = [].
Proof. unfold index_or_nil. by rewrite lookup_empty. Qed.

(** X9: the plan lists under [Others] the packages of the module outside
    [<module>/apps/] and under an application those whose first path segment
    after that prefix is its name; indirect packages appear nowhere, nothing
    is listed twice, and no application has an empty list. *)
Theorem buildPlan_classifies rg affectedChanges modName :
  range_ok rg →
  NoDup (AffectedImportPath <$> affectedChanges) →
  let result := buildPlan rg affectedChanges modName in
  let appsPrefix := modName +:+ "/apps/" in
  (∀ x, x ∈ Others result ↔
        ∃ a, a ∈ affectedChanges ∧ AffectedImportPath a = x ∧ in_others appsPrefix a)
  ∧ (∀ app x, x ∈ index_or_nil (Apps result) app ↔
              ∃ a, a ∈ affectedChanges ∧ AffectedImportPath a = x
                   ∧ in_app appsPrefix app a)
  ∧ NoDup (Others result)
  ∧ (∀ app, NoDup (index_or_nil (Apps result) app))
  ∧ (∀ app group, Apps result !! app = Some group → group ≠ []).
Proof.
  intros Hok Hnd result appsPrefix. subst result. unfold buildPlan. fold appsPrefix.
  pose proof (plan_index_values rg affectedChanges Hok Hnd) as Hperm.
  set (walk := (rg site_plan AffectedPackage (plan_index affectedChanges)).*2) in *.
  assert (NoDup (AffectedImportPath <$> walk)) as Hwalk by by rewrite Hperm.
  split; [|split; [|split; [|split]]].
  - intros x. rewrite foldl_plan_step_others. simpl.
    rewrite list_elem_of_fmap. setoid_rewrite list_elem_of_filter.
    setoid_rewrite Hperm. naive_solver.
  - intros app x. rewrite foldl_plan_step_group.
    cbn [Apps]. rewrite index_or_nil_empty, app_nil_l.
    rewrite list_elem_of_fmap. setoid_rewrite list_elem_of_filter.
    setoid_rewrite Hperm. naive_solver.
  - rewrite foldl_plan_step_others. simpl.
    eapply sublist_NoDup; [exact Hwalk|]. apply fmap_sublist, sublist_filter.
  - intros app. rewrite foldl_plan_step_group.
    cbn [Apps]. rewrite index_or_nil_empty, app_nil_l.
    eapply sublist_NoDup; [exact Hwalk|]. apply fmap_sublist, sublist_filter.
  - intros app group Hgroup ->.
    pose proof (foldl_plan_step_group appsPrefix {| Apps := ∅; Others := [] |}
                  walk app) as Hg.
    cbn [Apps] in Hg. rewrite index_or_nil_empty, app_nil_l in Hg.
    unfold index_or_nil in Hg. rewrite Hgroup in Hg. simpl in Hg.
    symmetry in Hg. apply fmap_nil_inv in Hg.
    assert (Apps (foldl (plan_step appsPrefix) {| Apps := ∅; Others := [] |} walk)
              !! app = None) as Hnone.
    { apply foldl_plan_step_absent. split; [apply lookup_empty|done]. }
    congruence.
Qed.

Lemma buildPlan_classifies_witness :
  let result := buildPlan reversed_order plan_input "m" in
  let appsPrefix := "m" +:+ "/apps/" in
  (∀ x, x ∈ Others result ↔
        ∃ a, a ∈ plan_input ∧ AffectedImportPath a = x ∧ in_others appsPrefix a)
  ∧ (∀ app x, x ∈ index_or_nil (Apps result) app ↔
              ∃ a, a ∈ plan_input ∧ AffectedImportPath a = x
                   ∧ in_app appsPrefix app a)
  ∧ NoDup (Others result)
  ∧ (∀ app, NoDup (index_or_nil (Apps result) app))
  ∧ (∀ app group, Apps result !! app = Some group → group ≠ []).
Proof.
  apply (buildPlan_classifies reversed_order plan_input "m").
  - intros site A m. apply reverse_Permutation.
  - apply (bool_decide_unpack _). by vm_compute.
Defined.

Lemma values_insert_append (m : gmap string (list string)) k x :
  mjoin (map_to_list (<[k := index_or_nil m k ++ [x]]> m)).*2
  ≡ₚ x :: mjoin (map_to_list m).*2.
Proof.
  unfold index_or_nil. destruct (m !! k) as [group|] eqn:E; simpl.
  - rewrite <-(insert_delete_eq m k (group ++ [x])).
    rewrite map_to_list_insert by apply lookup_delete_eq.
    rewrite <-(map_to_list_delete m k group E). rewrite !fmap_cons. simpl.
    rewrite <-app_assoc. symmetry. apply Permutation_middle.
  - by rewrite map_to_list_insert.
Qed.

Lemma plan_step_packages pre r a :
  plan_packages (plan_step pre r a)
  ≡ₚ plan_packages r ++ (if Indirect a then [] else [AffectedImportPath a]).
Proof.
  unfold plan_packages. destruct (Indirect a) eqn:Hind.
  { unfold plan_step. rewrite Hind. by rewrite app_nil_r. }
  destruct (strings_HasPrefix (AffectedImportPath a) pre) eqn:Hpre.
  - rewrite plan_step_apps_insert by done. rewrite values_insert_append.
    assert (Others (plan_step pre r a) = Others r) as ->.
    { unfold plan_step. by rewrite Hind, Hpre. }
    rewrite <-Permutation_middle. apply Permutation_cons_append.
  - unfold plan_step. rewrite Hind, Hpre. cbn.
    rewrite <-!app_assoc. apply Permutation_app_head, Permutation_app_comm.
Qed.

Lemma foldl_plan_step_packages pre r l :
  plan_packages (foldl (plan_step pre) r l)
  ≡ₚ plan_packages r ++ (AffectedImportPath <$> filter (λ a, Indirect a = false) l).
Proof.
  revert r. induction l as [|a l IH]; intros r; cbn [foldl].
  { by rewrite filter_nil, app_nil_r. }
  rewrite IH, plan_step_packages. destruct (Indirect a) eqn:Hind.
  - rewrite filter_cons_False by congruence. by rewrite app_nil_r.
  - rewrite filter_cons_True by done. by rewrite fmap_cons, <-app_assoc.
Qed.

(** X10: the plan lists every package of the module once: its paths, over
    [Others] and all applications, are a rearrangement of the import paths of
    the entries that are not indirect. *)
Theorem buildPlan_lists_each_once rg affectedChanges modName :
  range_ok rg →
  NoDup (AffectedImportPath <$> affectedChanges) →
  plan_packages (buildPlan rg affectedChanges modName)
  ≡ₚ AffectedImportPath <$> filter (λ a, Indirect a = false) affectedChanges.
Proof.
  intros Hok Hnd. unfold buildPlan. rewrite foldl_plan_step_packages.
  unfold plan_packages at 1. cbn [Apps Others].
  rewrite map_to_list_empty. simpl.
  by rewrite (plan_index_values rg affectedChanges Hok Hnd).
Qed.

Lemma buildPlan_lists_each_once_witness :
  plan_packages (buildPlan reversed_order plan_input "m")
  ≡ₚ AffectedImportPath <$> filter (λ a, Indirect a = false) plan_input.
Proof.
  apply (buildPlan_lists_each_once reversed_order plan_input "m").
  - intros site A m. apply reverse_Permutation.
  - apply (bool_decide_unpack _). by vm_compute.
Defined.

(** ** Application names *)

Lemma append_cons (c : ascii) (s t : string) : String c s +:+ t = String c (s +:+ t).
Proof. reflexivity. Qed.

Lemma append_empty_r (s : string) : s +:+ "" = s.
Proof. induction s as [|c s IH]; [done|]. by rewrite append_cons, IH. Qed.

Lemma append_assoc (s t u : string) : (s +:+ t) +:+ u = s +:+ t +:+ u.
Proof. induction s as [|c s IH]; [done|]. by rewrite !append_cons, IH. Qed.

Lemma prefix_append (s t u : string) :
  String.prefix (s +:+ t) (s +:+ u) = String.prefix t u.
Proof.
  induction s as [|c s IH]; [done|]. rewrite !append_cons. cbn.
  destruct (ascii_dec c c); [done|congruence].
Qed.

Lemma prefix_drop (pre s : string) :
  String.prefix pre s = true → s = pre +:+ string_drop (String.length pre) s.
Proof.
  revert s. induction pre as [|c pre IH]; intros s; [done|].
  destruct s as [|d s]; [done|]. cbn.
  destruct (ascii_dec c d) as [->|]; [|done].
  intros H. rewrite append_cons. f_equal. by apply IH.
Qed.

Lemma rev_app_append (s t : string) :
  String.rev_app s t = String.rev s +:+ t.
Proof.
  unfold String.rev. revert t. induction s as [|c s IH]; intros t; [done|].
  cbn [String.rev_app]. rewrite (IH (String c t)), (IH (String c "")).
  by rewrite append_assoc.
Qed.

Lemma split_on_aux_hd sep cur s :
  hd "" (split_on_aux sep cur s) = String.rev cur +:+ take_until sep s.
Proof.
  revert cur. induction s as [|c s IH]; intros cur; simpl.
  { by rewrite append_empty_r. }
  destruct (Ascii.eqb c sep); simpl.
  - by rewrite append_empty_r.
  - rewrite IH. unfold String.rev at 1. cbn [String.rev_app].
    by rewrite rev_app_append, append_assoc.
Qed.

Lemma take_until_free sep s : sep ∉ String.list_ascii_of_string (take_until sep s).
Proof.
  induction s as [|c s IH]; simpl; [apply not_elem_of_nil|].
  destruct (Ascii.eqb c sep) eqn:E; simpl; [apply not_elem_of_nil|].
  apply not_elem_of_cons. split; [|done].
  intros ->. by rewrite Ascii.eqb_refl in E.
Qed.

Lemma take_until_prefix sep s :
  s = take_until sep s
  ∨ String.prefix (take_until sep s +:+ String sep "") s = true.
Proof.
  induction s as [|c s IH]; [by left|]. simpl.
  destruct (Ascii.eqb c sep) eqn:E.
  - right. apply Ascii.eqb_eq in E as ->.
    change ("" +:+ String sep "") with (String sep ""). cbn.
    destruct (ascii_dec sep sep); [by destruct s|congruence].
  - destruct IH as [IH|IH].
    + left. by rewrite <-IH.
    + right. rewrite append_cons. cbn. destruct (ascii_dec c c); [done|congruence].
Qed.

(** X11: a package listed under an application lies in that application's
    directory: its import path is [<module>/apps/<app>] or continues it with
    a slash, and the application name holds no slash. *)
Theorem buildPlan_app_is_first_segment rg affectedChanges modName app x :
  x ∈ index_or_nil (Apps (buildPlan rg affectedChanges modName)) app →
  (x = modName +:+ "/apps/" +:+ app
   ∨ strings_HasPrefix x (modName +:+ "/apps/" +:+ app +:+ "/") = true)
  ∧ "/"%char ∉ String.list_ascii_of_string app.
Proof.
  unfold buildPlan. rewrite foldl_plan_step_group. cbn [Apps].
  rewrite index_or_nil_empty, app_nil_l.
  intros (a & -> & [(_ & Hpre & Happ) _]%list_elem_of_filter)%list_elem_of_fmap.
  unfold app_name, strings_Split, strings_TrimPrefix in Happ.
  rewrite Hpre, split_on_aux_hd in Happ. simpl in Happ. subst app.
  unfold strings_HasPrefix in *. apply prefix_drop in Hpre.
  set (rest := string_drop (String.length (modName +:+ "/apps/"))
                           (AffectedImportPath a)) in *.
  split; [|apply take_until_free].
  change (String.rev "" +:+ take_until "/"%char rest)
    with (take_until "/"%char rest).
  rewrite Hpre.
  rewrite <-(append_assoc modName "/apps/" (take_until "/"%char rest)).
  rewrite <-(append_assoc modName "/apps/" (take_until "/"%char rest +:+ "/")).
  destruct (take_until_prefix "/"%char rest) as [Hrest|Hrest].
  - left. by f_equal.
  - right. by rewrite prefix_append.
Qed.

Lemma buildPlan_app_is_first_segment_witness :
  ("m/apps/web/api" = "m" +:+ "/apps/" +:+ "web"
   ∨ strings_HasPrefix "m/apps/web/api" ("m" +:+ "/apps/" +:+ "web" +:+ "/") = true)
  ∧ "/"%char ∉ String.list_ascii_of_string "web".
Proof.
  apply (buildPlan_app_is_first_segment canonical_order plan_input "m" "web"
           "m/apps/web/api").
  apply (bool_decide_unpack _). by vm_compute.
Defined.

(** ** The test matrix *)

Lemma filter_all {A} (P : A → Prop) `{!∀ x, Decision (P x)} (l : list A) :
  (∀ x, x ∈ l → P x) → filter P l = l.
Proof.
  induction l as [|x l IH]; intros Hall; [done|].
  rewrite filter_cons_True by (apply Hall; by left).
  rewrite IH; [done|]. intros y Hy. apply Hall. by right.
Qed.

Lemma plan_others_elem rg affectedChanges modName x :
  range_ok rg →
  NoDup (AffectedImportPath <$> affectedChanges) →
  x ∈ Others (buildPlan rg affectedChanges modName) ↔
  ∃ a, a ∈ affectedChanges ∧ AffectedImportPath a = x
       ∧ in_others (modName +:+ "/apps/") a.
Proof.
  intros Hok Hnd. unfold buildPlan.
  pose proof (plan_index_values rg affectedChanges Hok Hnd) as Hperm.
  rewrite foldl_plan_step_others. simpl.
  rewrite list_elem_of_fmap. setoid_rewrite list_elem_of_filter.
  setoid_rewrite Hperm. naive_solver.
Qed.

Lemma plan_group_elem rg affectedChanges modName app x :
  range_ok rg →
  NoDup (AffectedImportPath <$> affectedChanges) →
  x ∈ index_or_nil (Apps (buildPlan rg affectedChanges modName)) app ↔
  ∃ a, a ∈ affectedChanges ∧ AffectedImportPath a = x
       ∧ in_app (modName +:+ "/apps/") app a.
Proof.
  intros Hok Hnd. unfold buildPlan.
  pose proof (plan_index_values rg affectedChanges Hok Hnd) as Hperm.
  rewrite foldl_plan_step_group.
  cbn [Apps]. rewrite index_or_nil_empty, app_nil_l.
  rewrite list_elem_of_fmap. setoid_rewrite list_elem_of_filter.
  setoid_rewrite Hperm. naive_solver.
Qed.

Lemma plan_group_nonempty rg affectedChanges modName app group :
  Apps (buildPlan rg affectedChanges modName) !! app = Some group → group ≠ [].
Proof.
  unfold buildPlan. intros Hgroup ->.
  set (walk := (rg site_plan AffectedPackage (plan_index affectedChanges)).*2) in *.
  pose proof (foldl_plan_step_group (modName +:+ "/apps/")
                {| Apps := ∅; Others := [] |} walk app) as Hg.
  cbn [Apps] in Hg. rewrite index_or_nil_empty, app_nil_l in Hg.
  unfold index_or_nil in Hg. rewrite Hgroup in Hg. simpl in Hg.
  symmetry in Hg. apply fmap_nil_inv in Hg.
  assert (Apps (foldl (plan_step (modName +:+ "/apps/"))
                  {| Apps := ∅; Others := [] |} walk) !! app = None) as Hnone.
  { apply foldl_plan_step_absent. split; [apply lookup_empty|done]. }
  congruence.
Qed.

Lemma plan_paths rg affectedChanges modName :
  range_ok rg →
  NoDup (AffectedImportPath <$> affectedChanges) →
  plan_packages (buildPlan rg affectedChanges modName)
  ≡ₚ AffectedImportPath <$> filter (λ a, Indirect a = false) affectedChanges.
Proof.
  intros Hok Hnd. unfold buildPlan. rewrite foldl_plan_step_packages.
  unfold plan_packages at 1. cbn [Apps Others].
  rewrite map_to_list_empty. simpl.
  by rewrite (plan_index_values rg affectedChanges Hok Hnd).
Qed.

(** X12: the matrix has one row per application, named after it and holding
    exactly the packages of that application, with pairwise distinct names,
    followed by one row [@others], holding exactly the packages outside the
    applications, when there is such a package; no row is empty, and the
    rows together list every package of the module once. *)
Theorem matrix_rows_cover_module rg affectedChanges modName :
  range_ok rg →
  NoDup (AffectedImportPath <$> affectedChanges) →
  let rows := drawJSONMatrix_rows rg affectedChanges modName in
  let appsPrefix := modName +:+ "/apps/" in
  mjoin (Packages <$> rows)
  ≡ₚ AffectedImportPath <$> filter (λ a, Indirect a = false) affectedChanges
  ∧ (∀ row, row ∈ rows → Packages row ≠ [])
  ∧ NoDup (Name <$> filter (λ row, IsApp row = true) rows)
  ∧ ((∃ row, row ∈ rows ∧ IsApp row = false) ↔
     ∃ a, a ∈ affectedChanges ∧ in_others appsPrefix a)
  ∧ (∀ row, row ∈ rows → IsApp row = false →
            last rows = Some row ∧ Name row = "@others")
  ∧ (∀ row, row ∈ rows → IsApp row = true →
            ∀ x, x ∈ Packages row ↔
                 ∃ a, a ∈ affectedChanges ∧ AffectedImportPath a = x
                      ∧ in_app appsPrefix (Name row) a)
  ∧ (∀ app a, a ∈ affectedChanges → in_app appsPrefix app a →
              ∃ row, row ∈ rows ∧ IsApp row = true ∧ Name row = app)
  ∧ (∀ row, row ∈ rows → IsApp row = false →
            ∀ x, x ∈ Packages row ↔
                 ∃ a, a ∈ affectedChanges ∧ AffectedImportPath a = x
                      ∧ in_others appsPrefix a).
Proof.
  intros Hok Hnd rows appsPrefix. subst rows appsPrefix.
  unfold drawJSONMatrix_rows.
  pose proof (λ x, plan_others_elem rg affectedChanges modName x Hok Hnd) as Hothers.
  pose proof (λ app x, plan_group_elem rg affectedChanges modName app x Hok Hnd)
    as Hgroup.
  pose proof (plan_group_nonempty rg affectedChanges modName) as Hgroups.
  pose proof (plan_paths rg affectedChanges modName Hok Hnd) as Hall.
  unfold plan_packages in Hall.
  set (result := buildPlan rg affectedChanges modName) in *.
  set (appRows := (λ kv : string * list string,
                     {| Name := kv.1; IsApp := true; Packages := kv.2 |})
                  <$> rg site_matrix (list string) (Apps result)).
  assert (Packages <$> appRows = (rg site_matrix (list string) (Apps result)).*2)
    as HappPackages by (unfold appRows; by rewrite <-list_fmap_compose).
  assert (Name <$> appRows = (rg site_matrix (list string) (Apps result)).*1)
    as HappNames by (unfold appRows; by rewrite <-list_fmap_compose).
  assert (∀ row, row ∈ appRows →
                 IsApp row = true ∧ Apps result !! Name row = Some (Packages row))
    as Hrows.
  { intros row ([k group] & -> & Hkv)%list_elem_of_fmap. split; [done|]. simpl.
    rewrite (Hok _ _ _) in Hkv. by apply elem_of_map_to_list in Hkv. }
  assert (∀ row, row ∈ appRows → IsApp row = true ∧ Packages row ≠ []) as Happ.
  { intros row Hrow. destruct (Hrows row Hrow) as [? Hlook]. split; [done|].
    by eapply Hgroups. }
  assert (∀ row, row ∈ appRows →
            ∀ x, x ∈ Packages row ↔
                 ∃ a, a ∈ affectedChanges ∧ AffectedImportPath a = x
                      ∧ in_app (modName +:+ "/apps/") (Name row) a) as HappSpec.
  { intros row Hrow x. destruct (Hrows row Hrow) as [_ Hlook].
    rewrite <-Hgroup. unfold index_or_nil. by rewrite Hlook. }
  assert (∀ app a, a ∈ affectedChanges → in_app (modName +:+ "/apps/") app a →
            ∃ row, row ∈ appRows ∧ IsApp row = true ∧ Name row = app) as HappEx.
  { intros app a Ha Hin.
    assert (AffectedImportPath a ∈ index_or_nil (Apps result) app) as Hx
      by (apply Hgroup; by exists a).
    unfold index_or_nil in Hx.
    destruct (Apps result !! app) as [group|] eqn:Hlook;
      [|simpl in Hx; by apply elem_of_nil in Hx].
    exists {| Name := app; IsApp := true; Packages := group |}.
    split; [|done]. unfold appRows. apply list_elem_of_fmap.
    exists (app, group). split; [done|].
    rewrite (Hok _ _ _). by apply elem_of_map_to_list. }
  assert (filter (λ row, IsApp row = true) appRows = appRows) as Hfilter.
  { apply filter_all. intros row Hrow. by apply Happ. }
  case_decide as Hlen.
  - assert (∃ o, o ∈ Others result) as [o Ho].
    { destruct (Others result) as [|o others]; [simpl in Hlen; lia|].
      exists o. by left. }
    split; [|split; [|split; [|split; [|split; [|split; [|split]]]]]].
    + rewrite fmap_app, join_app, HappPackages. simpl. rewrite app_nil_r.
      rewrite (Hok _ _ _), <-Hall. apply Permutation_app_comm.
    + intros row [Hrow|Hrow%list_elem_of_singleton]%elem_of_app;
        [by apply Happ|]. subst row. simpl. intros Hnil. rewrite Hnil in Ho.
      by apply elem_of_nil in Ho.
    + rewrite filter_app, Hfilter.
      rewrite (filter_cons_False _ _ []) by done.
      rewrite filter_nil, app_nil_r, HappNames. by apply range_keys_NoDup.
    + split.
      * intros _. destruct (proj1 (Hothers o) Ho) as (a & Ha & _ & Hin).
        by exists a.
      * intros _. eexists. split; [apply elem_of_app; right; by left|done].
    + intros row [Hrow|Hrow%list_elem_of_singleton]%elem_of_app Hno.
      * destruct (Happ row Hrow). congruence.
      * subst row. by rewrite last_snoc.
    + intros row [Hrow|Hrow%list_elem_of_singleton]%elem_of_app Hyes.
      * by apply HappSpec.
      * by subst row.
    + intros app a Ha Hin. destruct (HappEx app a Ha Hin) as (row & Hrow & ?).
      exists row. split; [|done]. apply elem_of_app. by left.
    + intros row [Hrow|Hrow%list_elem_of_singleton]%elem_of_app Hno.
      * destruct (Happ row Hrow). congruence.
      * subst row. intros x. apply Hothers.
  - assert (Others result = []) as Eo.
    { destruct (Others result); [done|]. simpl in Hlen. lia. }
    rewrite Eo in Hall. simpl in Hall.
    split; [|split; [|split; [|split; [|split; [|split; [|split]]]]]].
    + by rewrite HappPackages, (Hok _ _ _).
    + intros row Hrow. by apply Happ.
    + rewrite Hfilter, HappNames. by apply range_keys_NoDup.
    + split.
      * intros (row & Hrow & Hno). destruct (Happ row Hrow). congruence.
      * intros (a & Ha & Hin).
        assert (AffectedImportPath a ∈ Others result) as Hx
          by (apply Hothers; by exists a).
        rewrite Eo in Hx. by apply elem_of_nil in Hx.
    + intros row Hrow Hno. destruct (Happ row Hrow). congruence.
    + intros row Hrow _. by apply HappSpec.
    + apply HappEx.
    + intros row Hrow Hno. destruct (Happ row Hrow). congruence.
Qed.

Lemma matrix_rows_cover_module_witness :
  let rows := drawJSONMatrix_rows reversed_order plan_input "m" in
  let appsPrefix := "m" +:+ "/apps/" in
  mjoin (Packages <$> rows)
  ≡ₚ AffectedImportPath <$> filter (λ a, Indirect a = false) plan_input
  ∧ (∀ row, row ∈ rows → Packages row ≠ [])
  ∧ NoDup (Name <$> filter (λ row, IsApp row = true) rows)
  ∧ ((∃ row, row ∈ rows ∧ IsApp row = false) ↔
     ∃ a, a ∈ plan_input ∧ in_others appsPrefix a)
  ∧ (∀ row, row ∈ rows → IsApp row = false →
            last rows = Some row ∧ Name row = "@others")
  ∧ (∀ row, row ∈ rows → IsApp row = true →
            ∀ x, x ∈ Packages row ↔
                 ∃ a, a ∈ plan_input ∧ AffectedImportPath a = x
                      ∧ in_app appsPrefix (Name row) a)
  ∧ (∀ app a, a ∈ plan_input → in_app appsPrefix app a →
              ∃ row, row ∈ rows ∧ IsApp row = true ∧ Name row = app)
  ∧ (∀ row, row ∈ rows → IsApp row = false →
            ∀ x, x ∈ Packages row ↔
                 ∃ a, a ∈ plan_input ∧ AffectedImportPath a = x
                      ∧ in_others appsPrefix a).
Proof.
  apply (matrix_rows_cover_module reversed_order plan_input "m").
  - intros site A m. apply reverse_Permutation.
  - apply (bool_decide_unpack _). by vm_compute.
Defined.

(** ** The tree of the explain printer *)

Lemma tree_names_node name children :
  tree_names (Node name children) = name :: forest_names children.
Proof.
  simpl. f_equal. unfold forest_names.
  induction children as [|t ts IH]; [done|]. rewrite fmap_cons. simpl.
  by rewrite IH.
Qed.

Lemma tree_names_root_in t : root_name t ∈ tree_names t.
Proof. destruct t as [name children]. rewrite tree_names_node. by left. Qed.

Lemma forest_names_app ts1 ts2 :
  forest_names (ts1 ++ ts2) = forest_names ts1 ++ forest_names ts2.
Proof. unfold forest_names. by rewrite fmap_app, join_app. Qed.

Lemma forest_names_cons t ts :
  forest_names (t :: ts) = tree_names t ++ forest_names ts.
Proof. done. Qed.

Lemma forest_edges_cons t ts :
  forest_edges (t :: ts) = tree_edges t ++ forest_edges ts.
Proof. done. Qed.

Lemma elem_of_tree_edges_node name children e :
  e ∈ tree_edges (Node name children) ↔
  (∃ t, t ∈ children ∧ e = (name, root_name t)) ∨ e ∈ forest_edges children.
Proof.
  simpl. induction children as [|t ts IH].
  { unfold forest_edges. simpl. split; [by intros ?%elem_of_nil|].
    intros [(t & Ht & _)|H]; [by apply elem_of_nil in Ht|by apply elem_of_nil in H]. }
  rewrite elem_of_cons, elem_of_app, IH, forest_edges_cons, elem_of_app.
  setoid_rewrite elem_of_cons. naive_solver.
Qed.

Lemma size_difference_mono (U V W : gset string) :
  V ⊆ W → size (U ∖ W) ≤ size (U ∖ V).
Proof. intros H. apply subseteq_size. set_solver. Qed.

Lemma size_difference_mark (U V : gset string) p :
  p ∈ U → p ∉ V → S (size (U ∖ ({[p]} ∪ V))) = size (U ∖ V).
Proof.
  intros HU HV.
  assert (U ∖ V = {[p]} ∪ U ∖ ({[p]} ∪ V)) as ->.
  { apply set_eq. intros z. destruct (decide (z = p)); set_solver. }
  rewrite (size_union (C:=gset string) {[p]} (U ∖ ({[p]} ∪ V))) by set_solver.
  by rewrite size_singleton.
Qed.

Lemma buildTreeNode_visited n dependencyMap visited pkg :
  pkg ∈ visited → buildTreeNode n dependencyMap visited pkg = (None, visited).
Proof. intros H. destruct n; simpl; by rewrite decide_True. Qed.

Lemma buildTreeNode_fresh n dependencyMap visited pkg :
  pkg ∉ visited →
  buildTreeNode (S n) dependencyMap visited pkg =
  let st := foldl (tree_step (buildTreeNode n dependencyMap))
                  ([], {[pkg]} ∪ visited) (index_or_nil dependencyMap pkg) in
  (Some (Node pkg st.1), st.2).
Proof. intros H. simpl. by rewrite decide_False. Qed.

(** A loop over calls that behave as expected. *)
Lemma tree_steps_ok dependencyMap build l ts v :
  (∀ v' d, v ⊆ v' → d ∈ l → build_ok dependencyMap build v' d) →
  ∃ new,
    (foldl (tree_step build) (ts, v) l).1 = ts ++ new
    ∧ NoDup (forest_names new)
    ∧ v ⊆ (foldl (tree_step build) (ts, v) l).2
    ∧ (∀ x, x ∈ forest_names new ↔
            x ∈ (foldl (tree_step build) (ts, v) l).2 ∧ x ∉ v)
    ∧ (∀ d, d ∈ l → d ∈ (foldl (tree_step build) (ts, v) l).2)
    ∧ (∀ x y, x ∈ forest_names new → dependent_of dependencyMap x y →
              y ∈ (foldl (tree_step build) (ts, v) l).2)
    ∧ (∀ x, x ∈ forest_names new →
            ∃ d, d ∈ l ∧ rtc (dependent_of dependencyMap) d x)
    ∧ (∀ e, e ∈ forest_edges new → dependent_of dependencyMap e.1 e.2)
    ∧ (∀ t, t ∈ new → root_name t ∈ l).
Proof.
  revert ts v. induction l as [|d l IH]; intros ts v Hbuild.
  { exists []. rewrite app_nil_r. simpl.
    change (forest_names []) with (@nil string).
    change (forest_edges []) with (@nil (string * string)).
    repeat split; try (by apply NoDup_nil); try done; try (by intros [? ?]);
      intros;
      match goal with H : _ ∈ [] |- _ => by apply elem_of_nil in H end. }
  cbn [foldl]. pose proof (Hbuild v d (reflexivity _) ltac:(by left)) as Hd.
  unfold build_ok in Hd. unfold tree_step at 2 4 6 8 10.
  destruct (build (ts, v).2 d) as [[t|] v1] eqn:E; cbn [fst snd] in *;
    rewrite E in Hd; cbn [fst snd] in Hd.
  - destruct Hd as (Hfresh & Hroot & Hnd & Hsub & Hmem & Hclosed & Hreach & Hedges).
    destruct (IH (ts ++ [t]) v1) as
      (new & Hts & Hnd' & Hsub' & Hmem' & Hl & Hclosed' & Hreach' & Hedges' & Hroots).
    { intros v' d' Hv' Hd'. apply Hbuild; [set_solver|by right]. }
    set (st := foldl (tree_step build) (ts ++ [t], v1) l) in *.
    exists (t :: new). rewrite Hts, <-app_assoc. split; [done|].
    rewrite forest_names_cons, forest_edges_cons.
    split; [|split; [|split; [|split; [|split; [|split; [|split]]]]]].
    + apply NoDup_app. split; [done|]. split; [|done].
      intros x Hx Hx'. apply Hmem in Hx as [Hx _]. apply Hmem' in Hx' as [_ Hx'].
      done.
    + set_solver.
    + intros x. rewrite elem_of_app, Hmem, Hmem'.
      destruct (decide (x ∈ v1)); set_solver.
    + intros d' [->|Hd']%elem_of_cons; [|by apply Hl].
      pose proof (tree_names_root_in t) as Hr. rewrite Hroot in Hr.
      apply Hmem in Hr as [Hr _]. by apply Hsub'.
    + intros x y [Hx|Hx]%elem_of_app Hxy.
      * apply Hsub'. by eapply Hclosed.
      * by eapply Hclosed'.
    + intros x [Hx|Hx]%elem_of_app.
      * exists d. split; [by left|]. by apply Hreach.
      * destruct (Hreach' x Hx) as (d' & Hd' & Hrtc). exists d'. split; [by right|done].
    + intros e [He|He]%elem_of_app; [by apply Hedges|by apply Hedges'].
    + intros t' [->|Ht']%elem_of_cons; [rewrite Hroot; by left|].
      right. by apply Hroots.
  - destruct Hd as [Hin ->].
    destruct (IH ts v) as
      (new & Hts & Hnd' & Hsub' & Hmem' & Hl & Hclosed' & Hreach' & Hedges' & Hroots).
    { intros v' d' Hv' Hd'. apply Hbuild; [done|by right]. }
    exists new. repeat split; try done.
    + by apply Hmem'.
    + by apply Hmem'.
    + by apply Hmem'.
    + intros d' [->|Hd']%elem_of_cons; [by apply Hsub'|by apply Hl].
    + intros x Hx. destruct (Hreach' x Hx) as (d' & Hd' & Hrtc).
      exists d'. split; [by right|done].
    + intros t Ht. right. by apply Hroots.
Qed.

(** A call of [buildTreeNode] behaves as expected when its depth covers the
    packages that can still be visited. *)
Lemma buildTreeNode_ok dependencyMap n visited pkg :
  size ((dependents_range dependencyMap ∪ {[pkg]}) ∖ visited) ≤ n →
  build_ok dependencyMap (buildTreeNode n dependencyMap) visited pkg.
Proof.
  revert visited pkg. induction n as [|n IH]; intros visited pkg Hn;
    unfold build_ok; destruct (decide (pkg ∈ visited)) as [Hin|Hfresh].
  - by rewrite buildTreeNode_visited.
  - pose proof (size_difference_mark
                  (dependents_range dependencyMap ∪ {[pkg]}) visited pkg
                  ltac:(set_solver) Hfresh). lia.
  - by rewrite buildTreeNode_visited.
  - rewrite buildTreeNode_fresh by done. cbn zeta. cbn [fst snd].
    destruct (tree_steps_ok dependencyMap (buildTreeNode n dependencyMap)
                (index_or_nil dependencyMap pkg) [] ({[pkg]} ∪ visited))
      as (new & Hts & Hnd & Hsub & Hmem & Hl & Hclosed & Hreach & Hedges & Hroots).
    { intros v' d Hv' Hd. apply IH.
      assert (d ∈ dependents_range dependencyMap) as Hrange
        by by eapply index_or_nil_range.
      assert ((dependents_range dependencyMap ∪ {[d]}) ∖ v'
              ⊆ (dependents_range dependencyMap ∪ {[pkg]}) ∖ ({[pkg]} ∪ visited))
        as Hincl by set_solver.
      apply subseteq_size in Hincl.
      pose proof (size_difference_mark
                    (dependents_range dependencyMap ∪ {[pkg]}) visited pkg
                    ltac:(set_solver) Hfresh). lia. }
    set (st := foldl (tree_step (buildTreeNode n dependencyMap))
                     ([], {[pkg]} ∪ visited) (index_or_nil dependencyMap pkg)) in *.
    rewrite app_nil_l in Hts. rewrite Hts, tree_names_node.
    split; [done|]. split; [done|].
    split; [|split; [|split; [|split; [|split]]]].
    + apply NoDup_cons. split; [|done].
      intros Hp. apply Hmem in Hp as [_ Hp]. set_solver.
    + set_solver.
    + intros x. rewrite elem_of_cons, Hmem.
      destruct (decide (x = pkg)) as [->|Hne]; set_solver.
    + intros x y [->|Hx]%elem_of_cons Hxy; [by apply Hl|by eapply Hclosed].
    + intros x [->|Hx]%elem_of_cons; [apply rtc_refl|].
      destruct (Hreach x Hx) as (d & Hd & Hrtc). by eapply rtc_l.
    + intros e [(t & Ht & ->)|He]%elem_of_tree_edges_node; [|by apply Hedges].
      simpl. by apply Hroots.
Qed.

Lemma buildTreeNode_grows dependencyMap n visited pkg :
  visited ⊆ (buildTreeNode n dependencyMap visited pkg).2.
Proof.
  revert visited pkg. induction n as [|n IH]; intros visited pkg;
    destruct (decide (pkg ∈ visited)) as [Hin|Hfresh];
    try (by rewrite buildTreeNode_visited).
  - simpl. rewrite decide_False by done. set_solver.
  - rewrite buildTreeNode_fresh by done. cbn zeta. cbn [snd].
    assert (∀ l st, st.2 ⊆ (foldl (tree_step (buildTreeNode n dependencyMap)) st l).2)
      as Hfold.
    { induction l as [|d l IHl]; intros st; [done|]. cbn [foldl].
      etrans; [|apply IHl]. unfold tree_step. cbn [snd]. apply IH. }
    etrans; [|apply Hfold]. set_solver.
Qed.

(** Any two depths that cover the packages still to visit build the same
    tree: the depth [tree_depth] is never exhausted. *)
Lemma buildTreeNode_enough dependencyMap n1 n2 visited pkg :
  size ((dependents_range dependencyMap ∪ {[pkg]}) ∖ visited) ≤ n1 →
  size ((dependents_range dependencyMap ∪ {[pkg]}) ∖ visited) ≤ n2 →
  buildTreeNode n1 dependencyMap visited pkg
  = buildTreeNode n2 dependencyMap visited pkg.
Proof.
  revert n2 visited pkg. induction n1 as [|n1 IH]; intros n2 visited pkg H1 H2;
    destruct (decide (pkg ∈ visited)) as [Hin|Hfresh];
    try (by rewrite !buildTreeNode_visited).
  - pose proof (size_difference_mark
                  (dependents_range dependencyMap ∪ {[pkg]}) visited pkg
                  ltac:(set_solver) Hfresh). lia.
  - destruct n2 as [|n2].
    { pose proof (size_difference_mark
                    (dependents_range dependencyMap ∪ {[pkg]}) visited pkg
                    ltac:(set_solver) Hfresh). lia. }
    rewrite !buildTreeNode_fresh by done. cbn zeta.
    pose proof (size_difference_mark
                  (dependents_range dependencyMap ∪ {[pkg]}) visited pkg
                  ltac:(set_solver) Hfresh) as Hmark.
    assert (∀ l st,
              (∀ d, d ∈ l → d ∈ dependents_range dependencyMap) →
              {[pkg]} ∪ visited ⊆ st.2 →
              foldl (tree_step (buildTreeNode n1 dependencyMap)) st l
              = foldl (tree_step (buildTreeNode n2 dependencyMap)) st l) as Hfold.
    { induction l as [|d l IHl]; intros st Hl Hst; [done|]. cbn [foldl].
      assert (tree_step (buildTreeNode n1 dependencyMap) st d
              = tree_step (buildTreeNode n2 dependencyMap) st d) as Hstep.
      { unfold tree_step. rewrite (IH n2 st.2 d); [done| |].
        all: assert ((dependents_range dependencyMap ∪ {[d]}) ∖ st.2
                     ⊆ (dependents_range dependencyMap ∪ {[pkg]})
                       ∖ ({[pkg]} ∪ visited)) as Hincl
               by (pose proof (Hl d ltac:(by left)); set_solver);
             apply subseteq_size in Hincl; lia. }
      rewrite Hstep. apply IHl; [intros d' Hd'; apply Hl; by right|].
      unfold tree_step. cbn [snd]. etrans; [done|]. apply buildTreeNode_grows. }
    rewrite Hfold; [done| |done].
    intros d Hd. by eapply index_or_nil_range.
Qed.

Lemma dependent_of_imported_by pkgs x y :
  dependent_of (build_dependents pkgs) x y ↔ imported_by pkgs x y.
Proof. apply build_dependents_lookup. Qed.

Lemma tree_depth_covers dependencyMap (visited : gset string) pkg :
  size ((dependents_range dependencyMap ∪ {[pkg]}) ∖ visited)
  ≤ tree_depth dependencyMap.
Proof.
  unfold tree_depth. etrans.
  { apply (subseteq_size (C:=gset string)
             _ (dependents_range dependencyMap ∪ {[pkg]})). set_solver. }
  rewrite (size_union_alt (C:=gset string)).
  assert (size (({[pkg]} : gset string) ∖ dependents_range dependencyMap)
          ≤ size ({[pkg]} : gset string)) as Hle
    by (apply subseteq_size; set_solver).
  rewrite size_singleton in Hle. lia.
Qed.

(** The loop of [buildTree], after any list of changed packages: the forest
    holds each visited package once, the visited packages are those reachable
    from the list along reverse import edges, every edge of the forest is
    such an edge, and every root is in the list. *)
Lemma tree_walk_spec pkgs names :
  NoDup (forest_names (tree_walk pkgs names).1)
  ∧ (∀ x, x ∈ forest_names (tree_walk pkgs names).1 ↔ x ∈ (tree_walk pkgs names).2)
  ∧ (∀ x, x ∈ (tree_walk pkgs names).2 ↔ affected_from pkgs (list_to_set names) x)
  ∧ (∀ e, e ∈ forest_edges (tree_walk pkgs names).1 → imported_by pkgs e.1 e.2)
  ∧ (∀ t, t ∈ (tree_walk pkgs names).1 → root_name t ∈ names).
Proof.
  unfold tree_walk. cbn zeta.
  set (dependencyMap := build_dependents pkgs).
  destruct (tree_steps_ok dependencyMap
              (buildTreeNode (tree_depth dependencyMap) dependencyMap) names [] ∅)
    as (new & Hts & Hnd & _ & Hmem & Hl & Hclosed & Hreach & Hedges & Hroots).
  { intros v' d _ _. apply buildTreeNode_ok, tree_depth_covers. }
  set (st := foldl _ _ names) in *. rewrite app_nil_l in Hts. rewrite Hts.
  assert (∀ x, x ∈ forest_names new ↔ x ∈ st.2) as Hmem'.
  { intros x. rewrite Hmem. set_solver. }
  split; [done|]. split; [done|]. split; [|split; [|done]].
  - intros x. split.
    + intros Hx. apply Hmem' in Hx. destruct (Hreach x Hx) as (d & Hd & Hrtc).
      apply affected_from_rtc. exists d. split; [by apply elem_of_list_to_set|].
      eapply rtc_subrel; [|done]. intros y z. apply dependent_of_imported_by.
    + induction 1 as [x Hx|x y _ IH Hxy].
      * apply Hl. by apply elem_of_list_to_set in Hx.
      * eapply Hclosed; [by apply Hmem'|]. by apply dependent_of_imported_by.
  - intros e He. apply dependent_of_imported_by. by apply Hedges.
Qed.

(** X13: the tree of the explain printer shows every affected package once:
    its nodes are a rearrangement of the affected list, and each node sits
    under a package it imports. *)
Theorem explain_tree_covers_affected rg report :
  range_ok rg →
  NoDup (forest_names (buildTree report))
  ∧ forest_names (buildTree report)
    ≡ₚ affected_ids (propagateAffectedPackages rg report)
  ∧ (∀ e, e ∈ forest_edges (buildTree report) →
          imported_by (AllPackages report) e.1 e.2).
Proof.
  intros Hok.
  destruct (tree_walk_spec (AllPackages report) (PackageName <$> Changes_ report))
    as (Hnd & Hmem & Hvisited & Hedges & _).
  change (tree_walk (AllPackages report) (PackageName <$> Changes_ report)).1
    with (buildTree report) in *.
  split; [done|]. split; [|done].
  apply NoDup_Permutation; [done| |].
  - apply (strictly_sorted_NoDup AffectedImportPath).
    by apply propagate_strictly_sorted.
  - intros x. rewrite Hmem, Hvisited.
    by rewrite (propagate_ids_spec rg report x Hok).
Qed.

Lemma explain_tree_covers_affected_witness :
  NoDup (forest_names (buildTree bump_report))
  ∧ forest_names (buildTree bump_report)
    ≡ₚ affected_ids (propagateAffectedPackages reversed_order bump_report)
  ∧ (∀ e, e ∈ forest_edges (buildTree bump_report) →
          imported_by (AllPackages bump_report) e.1 e.2).
Proof.
  apply (explain_tree_covers_affected reversed_order bump_report).
  intros site A m. apply reverse_Permutation.
Defined.

Lemma tree_walk_snoc pkgs names d :
  tree_walk pkgs (names ++ [d]) =
  tree_step (buildTreeNode (tree_depth (build_dependents pkgs)) (build_dependents pkgs))
            (tree_walk pkgs names) d.
Proof. unfold tree_walk. cbn zeta. by rewrite foldl_snoc. Qed.

Lemma tree_walk_roots_snoc pkgs names d :
  root_name <$> (tree_walk pkgs (names ++ [d])).1 =
  (root_name <$> (tree_walk pkgs names).1)
  ++ (if decide (d ∈ (tree_walk pkgs names).2) then [] else [d]).
Proof.
  rewrite tree_walk_snoc. unfold tree_step. cbn [fst].
  pose proof (buildTreeNode_ok (build_dependents pkgs)
                (tree_depth (build_dependents pkgs)) (tree_walk pkgs names).2 d
                (tree_depth_covers _ _ _)) as Hd.
  unfold build_ok in Hd.
  destruct (buildTreeNode _ _ (tree_walk pkgs names).2 d) as [[t|] v1]; cbn [fst] in *.
  - destruct Hd as (Hfresh & Hroot & _). rewrite decide_False by done.
    by rewrite fmap_app, fmap_cons, Hroot.
  - destruct Hd as [Hin _]. rewrite decide_True by done. by rewrite app_nil_r.
Qed.

Lemma tree_walk_roots pkgs names :
  NoDup names →
  root_name <$> (tree_walk pkgs names).1 `sublist_of` names
  ∧ ∀ before d after,
      names = before ++ d :: after →
      d ∈ root_name <$> (tree_walk pkgs names).1 ↔ d ∉ (tree_walk pkgs before).2.
Proof.
  induction names as [|x names IH] using rev_ind; intros Hnd.
  { split; [done|]. intros before d after H. by destruct before. }
  apply NoDup_app in Hnd as (Hnd & Hdisj & _).
  destruct (IH Hnd) as [Hsub Hroots]. rewrite tree_walk_roots_snoc. split.
  - apply sublist_app; [done|]. case_decide; [apply sublist_nil_l|done].
  - intros before d after Heq.
    induction after as [|a after _] using rev_ind.
    + apply app_inj_tail in Heq as [-> ->]. rewrite elem_of_app.
      assert (d ∉ root_name <$> (tree_walk pkgs before).1) as Hnot.
      { intros Hd. eapply Hdisj; [|by left].
        by eapply elem_of_sublist. }
      case_decide; [rewrite elem_of_nil|rewrite list_elem_of_singleton]; naive_solver.
    + rewrite app_comm_cons, app_assoc in Heq. apply app_inj_tail in Heq as [-> ->].
      rewrite elem_of_app, (Hroots before d after eq_refl).
      assert (d ≠ a) as Hne.
      { intros ->. eapply Hdisj; [|by left]. apply elem_of_app. right. by left. }
      case_decide; [rewrite elem_of_nil|rewrite list_elem_of_singleton]; naive_solver.
Qed.

(** X14: the roots of the tree are changed packages, in the order of the
    change records, and a changed package heads a tree of its own unless it
    is reached, along reverse import edges, from a change record listed
    before it. *)
Theorem explain_tree_roots report :
  NoDup (PackageName <$> Changes_ report) →
  root_name <$> buildTree report `sublist_of` PackageName <$> Changes_ report
  ∧ ∀ before c after,
      Changes_ report = before ++ c :: after →
      PackageName c ∈ root_name <$> buildTree report ↔
      ¬ affected_from (AllPackages report) (list_to_set (PackageName <$> before))
                      (PackageName c).
Proof.
  intros Hnd.
  destruct (tree_walk_roots (AllPackages report) (PackageName <$> Changes_ report) Hnd)
    as [Hsub Hroots].
  change (tree_walk (AllPackages report) (PackageName <$> Changes_ report)).1
    with (buildTree report) in *.
  split; [done|]. intros before c after Heq.
  rewrite (Hroots (PackageName <$> before) (PackageName c) (PackageName <$> after))
    by (by rewrite Heq, fmap_app, fmap_cons).
  destruct (tree_walk_spec (AllPackages report) (PackageName <$> before))
    as (_ & _ & Hvisited & _).
  by rewrite Hvisited.
Qed.

Lemma explain_tree_roots_witness :
  root_name <$> buildTree bump_report `sublist_of` PackageName <$> Changes_ bump_report
  ∧ ∀ before c after,
      Changes_ bump_report = before ++ c :: after →
      PackageName c ∈ root_name <$> buildTree bump_report ↔
      ¬ affected_from (AllPackages bump_report)
                      (list_to_set (PackageName <$> before)) (PackageName c).
Proof.
  apply (explain_tree_roots bump_report).
  apply (bool_decide_unpack _). by vm_compute.
Defined.

(** ** Propagation of a union of changes *)

Lemma affected_from_union pkgs (S1 S2 : gset string) x :
  affected_from pkgs (S1 ∪ S2) x ↔ affected_from pkgs S1 x ∨ affected_from pkgs S2 x.
Proof.
  rewrite !affected_from_rtc. set_solver.
Qed.

(** X15: the packages affected by two lists of changes together are those
    affected by the one or by the other. *)
Theorem propagation_is_additive rg report ch1 ch2 x :
  range_ok rg →
  x ∈ affected_ids (propagateAffectedPackages rg (with_Changes report (ch1 ++ ch2)))
  ↔ x ∈ affected_ids (propagateAffectedPackages rg (with_Changes report ch1))
    ∨ x ∈ affected_ids (propagateAffectedPackages rg (with_Changes report ch2)).
Proof.
  intros Hok. rewrite !(propagate_ids_spec rg _ x Hok).
  unfold change_set. cbn [Changes_ AllPackages with_Changes].
  by rewrite fmap_app, list_to_set_app_L, affected_from_union.
Qed.

Lemma propagation_is_additive_witness :
  "m/c" ∈ affected_ids (propagateAffectedPackages canonical_order
                          (with_Changes chain_report
                             (Changes_ chain_report ++ Changes_ sibling_report)))
  ↔ "m/c" ∈ affected_ids (propagateAffectedPackages canonical_order
                            (with_Changes chain_report (Changes_ chain_report)))
    ∨ "m/c" ∈ affected_ids (propagateAffectedPackages canonical_order
                              (with_Changes chain_report (Changes_ sibling_report))).
Proof.
  apply (propagation_is_additive canonical_order chain_report
           (Changes_ chain_report) (Changes_ sibling_report) "m/c").
  intros site A m. reflexivity.
Defined.

(** ** The calls of a run *)

Create HintDb tame.

Lemma tame_ret {A} env r (a : A) : tame env r (ret a).
Proof. intros log. exists []. by rewrite app_nil_r. Qed.

Lemma tame_lift {A} env r (x : A + error) : tame env r (lift x).
Proof. intros log. exists []. by rewrite app_nil_r. Qed.

Lemma tame_exec env r argv :
  allowed_call env r (Exec argv) → tame env r (exec env argv).
Proof. intros Hargv log. exists [Exec argv]. split; [done|]. by constructor. Qed.

Lemma tame_write_file env r path content :
  allowed_call env r (WriteFile path content) →
  tame env r (write_file env path content).
Proof.
  intros Hpath log. exists [WriteFile path content]. split; [done|]. by constructor.
Qed.

Lemma tame_wrapf {A} env r msg (c : M A) : tame env r c → tame env r (wrapf msg c).
Proof.
  intros Hc log. destruct (Hc log) as (evs & Hlog & Hevs). exists evs.
  split; [|done]. unfold wrapf. by destruct (c log) as [[?|?] ?].
Qed.

Lemma tame_attempt {A} env r (c : M A) : tame env r c → tame env r (attempt c).
Proof.
  intros Hc log. destruct (Hc log) as (evs & Hlog & Hevs). exists evs.
  split; [|done]. unfold attempt. by destruct (c log) as [? ?].
Qed.

Lemma tame_bind {A B} env r (c : M A) (k : A → M B) :
  tame env r c → (∀ a, tame env r (k a)) → tame env r (bind c k).
Proof.
  intros Hc Hk log. destruct (Hc log) as (evs1 & Hlog1 & Hevs1). unfold bind.
  destruct (c log) as [[a|err] log1]; simpl in Hlog1; subst log1.
  - destruct (Hk a (log ++ evs1)) as (evs2 & Hlog2 & Hevs2).
    exists (evs1 ++ evs2). rewrite Hlog2, app_assoc. split; [done|].
    by apply Forall_app.
  - by exists evs1.
Qed.

#[local] Hint Resolve tame_ret tame_lift tame_wrapf tame_attempt tame_bind : tame.

Ltac tame_call :=
  first [apply tame_exec | apply tame_write_file];
  cbn [allowed_call]; set_solver.

#[local] Hint Extern 1 (tame _ _ (exec _ _)) => tame_call : tame.
#[local] Hint Extern 1 (tame _ _ (write_file _ _ _)) => tame_call : tame.

Lemma tame_parse_current env r : tame env r (parseGoMod env (goModFilePath r)).
Proof. unfold parseGoMod. auto 10 with tame. Qed.

Lemma tame_parse_baseline env r :
  tame env r (parseGoMod env (filepath_Join env (os_TempDir env) "go.mod.base")).
Proof. unfold parseGoMod. auto 10 with tame. Qed.

Lemma tame_listAllPackages env r : tame env r (listAllPackages env).
Proof. unfold listAllPackages. auto 10 with tame. Qed.

Lemma tame_getChangedGoFiles env r : tame env r (getChangedGoFiles env r).
Proof. unfold getChangedGoFiles. auto 10 with tame. Qed.

Lemma tame_affectedPackagesByGoModChange env r report :
  tame env r (affectedPackagesByGoModChange env r report).
Proof.
  unfold affectedPackagesByGoModChange, goModHasChanged, getChangedModules.
  cbn zeta. apply tame_bind; [auto 10 with tame|].
  intros []; cbn [negb]; auto 12 using tame_parse_baseline with tame.
Qed.

Lemma tame_affectedPackagesByExternalModule env rg r :
  tame env r (affectedPackagesByExternalModule env rg r).
Proof.
  unfold affectedPackagesByExternalModule, getChangedIndirectModules,
    getBaseModules, getAllModules. cbn zeta.
  apply tame_bind; [|auto with tame]. apply tame_wrapf.
  apply tame_bind; [|auto 10 with tame].
  do 3 (apply tame_bind; [auto 10 with tame|intros ?]).
  apply tame_bind; [|auto 10 with tame].
  destruct a1; auto 10 with tame.
Qed.

(** X16: whatever the outside world answers and whether the run succeeds or
    not, [Changes] only runs its nine query commands of [git] and [go] and
    only writes its three scratch files in the temporary directory. *)
Theorem changes_calls_are_allowed env rg r log0 :
  ∃ evs, (Changes env rg r log0).2 = log0 ++ evs
         ∧ Forall (allowed_call env r) evs.
Proof.
  unfold Changes.
  destruct (tame_parse_current env r log0) as (evs1 & H1 & Hevs1).
  destruct (parseGoMod env (goModFilePath r) log0) as [[mod'|err] log1];
    simpl in H1; subst log1; [|by exists evs1].
  destruct (tame_listAllPackages env r (log0 ++ evs1)) as (evs2 & H2 & Hevs2).
  destruct (listAllPackages env (log0 ++ evs1)) as [[pkgs|err] log2];
    simpl in H2; subst log2;
    [|exists (evs1 ++ evs2); rewrite app_assoc; split; [done|by apply Forall_app]].
  destruct (tame_getChangedGoFiles env r ((log0 ++ evs1) ++ evs2))
    as (evs3 & H3 & Hevs3).
  destruct (getChangedGoFiles env r ((log0 ++ evs1) ++ evs2)) as [[files|err] log3];
    simpl in H3; subst log3;
    [|exists (evs1 ++ evs2 ++ evs3); rewrite !app_assoc; split; [done|];
      rewrite <-!app_assoc; by rewrite !Forall_app].
  match goal with |- context [affectedPackagesByGoModChange env r ?rep ?l] =>
    destruct (tame_affectedPackagesByGoModChange env r rep l) as (evs4 & H4 & Hevs4);
    destruct (affectedPackagesByGoModChange env r rep l) as [[ch|err] log4]
  end; simpl in H4; subst log4;
    [|exists (evs1 ++ evs2 ++ evs3 ++ evs4); rewrite !app_assoc; split; [done|];
      rewrite <-!app_assoc; by rewrite !Forall_app].
  match goal with |- context [affectedPackagesByExternalModule env rg r ?l] =>
    destruct (tame_affectedPackagesByExternalModule env rg r l) as (evs5 & H5 & Hevs5);
    destruct (affectedPackagesByExternalModule env rg r l) as [[ch'|err] log5]
  end; simpl in H5; subst log5;
    exists (evs1 ++ evs2 ++ evs3 ++ evs4 ++ evs5); rewrite !app_assoc;
    (split; [done|]); rewrite <-!app_assoc; by rewrite !Forall_app.
Qed.
